(** * Structural behavioural-economics replication notebooks: estimation core

    A shallow embedding of the numerical core of two replication notebooks:

    - the discrete-choice model of Bruhin, Fehr and Schunk (2019):
      [loglike_dummy], [congradloglike], the cluster-robust sandwich
      variance, the delta method and the z-tests;
    - the effort model of Augenblick and Rabin (2019): [negloglike] with
      its Tobit correction and clamping loop, [gradcontr] and the same
      sandwich variance.

    Numbers.  A NumPy [float64] is modelled by a real number: the
    arithmetic is exact, rounding, overflow and underflow are not
    modelled.  The only place where the IEEE special values are kept is
    the logarithm and the sum that follows it ([np_log], [np_sum_x]),
    because that is where the notebooks meet them.  Python [int]s are [Z].

    Data.  A pandas data frame is a list of row records; the columns a
    function receives are columns of one frame, so an element-wise NumPy
    expression over columns is a [map] over rows, and the cluster column
    is the identifier field of the rows.

    Libraries.  What the notebooks import and only call is a parameter of
    the model: the numerical and automatic differentiation operators
    ([numdifftools.Hessian], [autograd.grad], [autograd.hessian]),
    [np.linalg.inv], the standard normal distribution function behind
    [norm.cdf], and the result of [scipy.optimize.minimize].

    Errors.  A Python exception is a value of [py]: a function that can
    raise returns [Ok] or [Raise]. *)

From Stdlib Require Import Reals Lra Lia List ZArith Bool Sorted Permutation.
Import ListNotations.

Set Implicit Arguments.
Open Scope R_scope.

(** ** Python exceptions

    A computation either returns or raises; the notebooks never catch. *)

Inductive pyerr : Type :=
| ZeroDivisionError
| IndexError
| ValueError
| LinAlgError.

Inductive py (A : Type) : Type :=
| Ok (a : A)
| Raise (e : pyerr).

Arguments Ok {A} a.
Arguments Raise {A} e.

Definition bind {A B : Type} (m : py A) (k : A -> py B) : py B :=
  match m with
  | Ok a => k a
  | Raise e => Raise e
  end.

Notation "x <- m ;; k" := (bind m (fun x => k))
  (at level 61, m at next level, right associativity).

(** [a / b] on two Python [int]s: true division, raising on a zero
    divisor. *)
Definition py_div (a b : Z) : py R :=
  if (b =? 0)%Z then Raise ZeroDivisionError else Ok (IZR a / IZR b).

(** [a / b] for a Python [float] over an [int]. *)
Definition py_fdiv (a : R) (b : Z) : py R :=
  if (b =? 0)%Z then Raise ZeroDivisionError else Ok (a / IZR b).

(** [l[i]] on a list. *)
Definition py_index {A : Type} (l : list A) (i : nat) : py A :=
  match nth_error l i with
  | Some a => Ok a
  | None => Raise IndexError
  end.

(** [l[-1]]. *)
Definition py_last {A : Type} (l : list A) : py A :=
  match l with
  | [] => Raise IndexError
  | a :: t => Ok (last t a)
  end.

(** Running a raising function over a list, left to right. *)
Fixpoint py_mapM {A B : Type} (f : A -> py B) (l : list A) : py (list B) :=
  match l with
  | [] => Ok []
  | a :: t => b <- f a ;; bs <- py_mapM f t ;; Ok (b :: bs)
  end.

(** ** NumPy primitives *)

Module Np.

(** Values a [float64] computation may produce once a logarithm has been
    taken: a finite number, an infinity, or not-a-number. *)
Inductive xreal : Type :=
| Fin (r : R)
| PInf
| NInf
| NaN.

Definition xadd (a b : xreal) : xreal :=
  match a, b with
  | NaN, _ | _, NaN => NaN
  | PInf, NInf | NInf, PInf => NaN
  | PInf, _ | _, PInf => PInf
  | NInf, _ | _, NInf => NInf
  | Fin x, Fin y => Fin (x + y)
  end.

Definition xneg (a : xreal) : xreal :=
  match a with
  | Fin x => Fin (- x)
  | PInf => NInf
  | NInf => PInf
  | NaN => NaN
  end.

Definition is_finite (a : xreal) : bool :=
  match a with Fin _ => true | _ => false end.

(** [np.log] on a finite argument: [log 0 = -inf], negative gives [nan]. *)
Definition np_log (p : R) : xreal :=
  if Rlt_dec 0 p then Fin (ln p)
  else if Req_dec_T p 0 then NInf else NaN.

(** [np.sum] of a vector, left to right. *)
Definition np_sum (l : list R) : R := fold_left Rplus l 0.

Definition np_sum_x (l : list xreal) : xreal := fold_left xadd l (Fin 0).

(** [a @ b] for two vectors of one length. *)
Definition dot (a b : list R) : R :=
  np_sum (map (fun p => fst p * snd p) (combine a b)).

(** [x ** n] for an integer exponent. *)
Definition pow_int (x : R) (n : Z) : R := powerRZ x n.

(** [np.unique]: the sorted distinct values. *)
Fixpoint insert_unique (z : Z) (l : list Z) : list Z :=
  match l with
  | [] => [z]
  | y :: t =>
      if (z <? y)%Z then z :: l
      else if (z =? y)%Z then l
      else y :: insert_unique z t
  end.

Definition np_unique (l : list Z) : list Z :=
  fold_right insert_unique [] l.

(** Matrices are lists of rows. *)
Definition matrix := list (list R).

Definition np_zeros (n : nat) : list R := repeat 0 n.
Definition np_zeros2 (n m : nat) : matrix := repeat (np_zeros m) n.

Definition vadd (a b : list R) : list R :=
  map (fun p => fst p + snd p) (combine a b).

Definition madd (A B : matrix) : matrix :=
  map (fun p => vadd (fst p) (snd p)) (combine A B).

(** [np.outer]. *)
Definition np_outer (a b : list R) : matrix :=
  map (fun x => map (fun y => x * y) b) a.

(** [np.sum(M, axis=0)] for a matrix with [k] columns. *)
Definition sum_axis0 (k : nat) (M : matrix) : list R :=
  fold_left vadd M (np_zeros k).

Definition entry (M : matrix) (i j : nat) : R := nth j (nth i M []) 0.

Definition column (M : matrix) (j : nat) : list R :=
  map (fun row => nth j row 0) M.

Definition ncols (M : matrix) : nat := length (hd [] M).

(** [M.T]. *)
Definition transpose (M : matrix) : matrix :=
  map (column M) (seq 0 (ncols M)).

(** [A @ B]. *)
Definition matmul (A B : matrix) : matrix :=
  map (fun row => map (fun j => dot row (column B j)) (seq 0 (ncols B))) A.

Definition mscale (c : R) (M : matrix) : matrix :=
  map (map (Rmult c)) M.

(** [np.diag] of a square matrix. *)
Definition np_diag (M : matrix) : list R :=
  map (fun i => entry M i i) (seq 0 (length M)).

(** [np.eye]. *)
Definition np_eye (n : nat) : matrix :=
  map (fun i => map (fun j => if (i =? j)%nat then 1 else 0) (seq 0 n))
      (seq 0 n).

(** An element-wise binary operation on two vectors, with NumPy's
    broadcasting of a one-element vector. *)
Definition np_map2 (f : R -> R -> R) (a b : list R) : py (list R) :=
  if (length a =? length b)%nat then
    Ok (map (fun p => f (fst p) (snd p)) (combine a b))
  else match a, b with
       | [x], _ => Ok (map (f x) b)
       | _, [y] => Ok (map (fun x => f x y) a)
       | _, _ => Raise ValueError
       end.

End Np.
Import Np.

(** ** SciPy: the normal distribution and the optimiser's result *)

Module Scipy.

(** [scipy.stats.norm.pdf(x, loc, scale)], for a positive [scale], as the
    exact density: it is positive and finite also where the binary64 value
    underflows to 0 (an argument far from [loc]) or overflows (a [scale]
    below the normal range). *)
Definition norm_pdf (x loc scale : R) : R :=
  exp (- (Rsqr ((x - loc) / scale)) / 2) / sqrt (2 * PI) / scale.

(** [scipy.stats.norm.cdf(x, loc, scale)], over the standard normal
    distribution function [Phi] of the library. *)
Definition norm_cdf (Phi : R -> R) (z loc scale : R) : R :=
  Phi ((z - loc) / scale).

(** [2*(1-norm.cdf(np.abs(z),0,1))]. *)
Definition pvalue_abs (Phi : R -> R) (z : R) : R :=
  2 * (1 - norm_cdf Phi (Rabs z) 0 1).

(** What [scipy.optimize.minimize] hands back: the point, the objective
    there, whether the method reports convergence, and the iteration
    count. *)
Record OptimizeResult : Type := mkResult {
  x : list R;
  fun_ : R;
  success : bool;
  nit : nat
}.

End Scipy.
Import Scipy.

(** ** Discrete-choice model (Bruhin, Fehr and Schunk) *)

Module DiscreteChoice.

(** One decision: the columns of [choices_exp1.csv] the notebook reads. *)
Record Choice : Type := mkChoice {
  sid : Z;
  s_x : R; r_x : R; s_y : R; r_y : R; q : R; v : R;
  self_x : R; other_x : R; self_y : R; other_y : R;
  choice_x : Z
}.

(** [np.column_stack((dt.s_x, dt.r_x, dt.q, dt.v))], one row. *)
Definition indicators_x (o : Choice) : list R := [s_x o; r_x o; q o; v o].
Definition indicators_y (o : Choice) : list R := [s_y o; r_y o; q o; v o].

(** [dt1[~dt1.sid.isin(data_drop.sid)]]: the rows of the subjects that are
    not on the list of dropped identifiers. *)
Definition drop_subjects (data_drop : list Z) (dt : list Choice)
  : list Choice :=
  filter (fun o => negb (existsb (Z.eqb (sid o)) data_drop)) dt.

(** [beta = v[0:-1]] and [sigma = np.exp(v[-1])]. *)
Definition beta_of (v : list R) : list R := removelast v.
Definition sigma_of (v : list R) : R := exp (last v 0).

Definition uleft (v : list R) (o : Choice) : R :=
  let lli := dot (indicators_x o) (beta_of v) in
  sigma_of v * ((1 - lli) * self_x o + lli * other_x o).

Definition uright (v : list R) (o : Choice) : R :=
  let rli := dot (indicators_y o) (beta_of v) in
  sigma_of v * ((1 - rli) * self_y o + rli * other_y o).

(** One entry of [probs], with the exact exponential: the entry lies
    strictly between 0 and 1 also where the binary64 computation saturates
    to 0 or 1 or gives [nan] (utilities of several hundreds in absolute
    value). *)
Definition probs_entry (v : list R) (o : Choice) : R :=
  let y := choice_x o in
  pow_int (exp (uleft v o) / (exp (uleft v o) + exp (uright v o))) y
  * pow_int (exp (uright v o) / (exp (uleft v o) + exp (uright v o))) (1 - y).

(** [v[-1]] needs a last entry and the matrix product
    [indicators_x @ beta] needs four coefficients: any other length of [v]
    raises. *)
Definition check_shape (v : list R) : py unit :=
  match v with
  | [] => Raise IndexError
  | _ => if (length v =? 5)%nat then Ok tt else Raise ValueError
  end.

Definition probs (v : list R) (rows : list Choice) : py (list R) :=
  _ <- check_shape v ;; Ok (map (probs_entry v) rows).

(** [nll = - np.sum(np.log(probs))]. *)
Definition nll_of_probs (ps : list R) : xreal :=
  xneg (np_sum_x (map np_log ps)).

Definition loglike_dummy (v : list R) (rows : list Choice) : py xreal :=
  ps <- probs v rows ;; Ok (nll_of_probs ps).

(** *** Gradient contributions *)

(** [(-1)**(1-y)] on an integer array: NumPy refuses a negative integer
    exponent. *)
Definition sign_pow (e : Z) : py R :=
  if (e <? 0)%Z then Raise ValueError else Ok (pow_int (-1) e).

(** One row of [gradi]: the four columns of [bgradi], then [ggradi]. *)
Definition grad_obs (v : list R) (o : Choice) : py (list R) :=
  let sigma := sigma_of v in
  let utl := uleft v o in
  let utr := uright v o in
  let pr := probs_entry v o in
  let u := exp utl in
  let w := exp utl + exp utr in
  let up :=
    map (fun ix => sigma * ix * (other_x o - self_x o) * u) (indicators_x o) in
  let wp :=
    map (fun p => fst p + sigma * snd p * ((other_y o - self_y o) * exp utr))
        (combine up (indicators_y o)) in
  s <- sign_pow (1 - choice_x o) ;;
  let bgradi :=
    map (fun p => (s * ((fst p * w - u * snd p) / pow_int w 2)) / pr)
        (combine up wp) in
  let up2 := utl * u in
  let wp2 := up2 + utr * exp utr in
  let ggradi := s * (((up2 * w - u * wp2) / pow_int w 2) / pr) in
  Ok (bgradi ++ [ggradi]).

(** [sel = [m for m in range(len(clusters)) if clusters[m] == c]]. *)
Definition select (clusters : list Z) (c : Z) : list nat :=
  filter (fun m => (nth m clusters 0 =? c)%Z) (seq 0 (length clusters)).

(** [gradi[sel, :]]. *)
Definition take_rows (M : matrix) (sel : list nat) : matrix :=
  map (fun m => nth m M []) sel.

(** The loop over the distinct cluster identifiers. *)
Definition sandwich_loop (k : nat) (gradi : matrix) (clusters : list Z)
  : matrix :=
  fold_left
    (fun sandwich c =>
       let gradsel := sum_axis0 k (take_rows gradi (select clusters c)) in
       madd sandwich (np_outer gradsel gradsel))
    (np_unique clusters) (np_zeros2 k k).

(** [clusters] is the [sid] column of the frame the rows come from;
    [len(indicators_x[0])] raises on an empty frame. *)
Definition congradloglike (v : list R) (rows : list Choice) : py matrix :=
  _ <- check_shape v ;;
  match rows with
  | [] => Raise IndexError
  | _ =>
      gradi <- py_mapM (grad_obs v) rows ;;
      let k := ncols gradi in
      Ok (sandwich_loop k gradi (map sid rows))
  end.

(** [res_s1 = sol.x] and
    [results_s1 = [*res_s1[0:-1], np.exp(res_s1[-1])]]. *)
Definition res_of (sol : OptimizeResult) : list R := x sol.

Definition results_of (res : list R) : py (list R) :=
  l <- py_last res ;; Ok (removelast res ++ [exp l]).

(** The printed log likelihood, [-sol.fun]. *)
Definition log_likelihood (sol : OptimizeResult) : R := - fun_ sol.

(** *** Cluster-robust standard errors and tests *)

Section Session.

(** The libraries the notebook calls: [numdifftools.Hessian],
    [np.linalg.inv] and the standard normal distribution function behind
    [scipy.stats.norm.cdf]. *)
Variable nd_Hessian : (list R -> py xreal) -> list R -> matrix.
Variable linalg_inv : matrix -> py matrix.
Variable Phi : R -> R.

Definition hess_fun (res : list R) (rows : list Choice) : matrix :=
  nd_Hessian (fun v => loglike_dummy v rows) res.

(** [(n-1) / (n-k) * (j/(j-1))] on the three lengths. *)
Definition adj_choice (n k j : Z) : py R :=
  a <- py_div (n - 1) (n - k) ;;
  b <- py_div j (j - 1) ;;
  Ok (a * b).

Definition adj (res : list R) (rows : list Choice) : py R :=
  adj_choice (Z.of_nat (length rows)) (Z.of_nat (length res))
           (Z.of_nat (length (np_unique (map sid rows)))).

Definition varcov (res : list R) (rows : list Choice) : py matrix :=
  inv_hess <- linalg_inv (hess_fun res rows) ;;
  a <- adj res rows ;;
  grad_contribution <- congradloglike res rows ;;
  Ok (mscale a (matmul (matmul inv_hess grad_contribution) inv_hess)).

(** [np.sqrt(np.diag(varcov))]. *)
Definition se_of_varcov (V : matrix) : list R := map sqrt (np_diag V).

(** The delta-method entry,
    [np.sqrt(np.exp(res[-1])**2 * se[-1]**2)]. *)
Definition delta_se (vlast selast : R) : R :=
  sqrt (pow_int (exp vlast) 2 * pow_int selast 2).

Definition se_delta (res se : list R) : py (list R) :=
  vlast <- py_last res ;;
  selast <- py_last se ;;
  Ok (removelast se ++ [delta_se vlast selast]).

Definition se_of (res : list R) (rows : list Choice) : py (list R) :=
  V <- varcov res rows ;;
  se_delta res (se_of_varcov V).

Definition zvalues (results se : list R) : py (list R) :=
  np_map2 Rdiv results se.

Definition pvalues (zs : list R) : list R := map (pvalue_abs Phi) zs.

(** The comparison of the two sessions. *)
Definition var_of (se : list R) : list R := map (fun s => pow_int s 2) se.

Definition zvalues_s1s2 (results_s1 se_s1 results_s2 se_s2 : list R)
  : py (list R) :=
  d <- np_map2 Rminus results_s1 results_s2 ;;
  vs <- np_map2 Rplus (var_of se_s1) (var_of se_s2) ;;
  np_map2 Rdiv (map Rabs d) (map sqrt vs).

Definition pvalues_s1s2 (zs : list R) : list R :=
  map (fun z => 2 * (1 - norm_cdf Phi z 0 1)) zs.

(** One session's columns of the table, with the printed summary. *)
Record SessionTable : Type := mkSessionTable {
  estimates : list R;
  standarderr : list R;
  z_stat : list R;
  p_val : list R;
  n_obs : nat;
  n_subjects : nat;
  loglik : R
}.

Definition session_table (sol : OptimizeResult) (rows : list Choice)
  : py SessionTable :=
  let res := res_of sol in
  results <- results_of res ;;
  se <- se_of res rows ;;
  zs <- zvalues results se ;;
  Ok {| estimates := results;
        standarderr := se;
        z_stat := zs;
        p_val := pvalues zs;
        n_obs := length rows;
        n_subjects := length (np_unique (map sid rows));
        loglik := log_likelihood sol |}.

End Session.

End DiscreteChoice.

(** ** Effort model (Augenblick and Rabin) *)

Module Effort.

(** A row of [decisions_data.dta] as loaded. *)
Record RawDecision : Type := mkRaw {
  raw_wid : Z;
  raw_netdistance : Z;
  raw_wage : R;
  raw_today : Z;
  raw_prediction : Z;
  raw_workdone1 : R;
  raw_effort : R;
  raw_bonusoffered : Z
}.

(** A row once the dummies have been added. *)
Record Decision : Type := mkDecision {
  wid : Z;
  netdistance : Z;
  wage : R;
  today : Z;
  prediction : Z;
  pb : R;
  effort : R;
  ind_effort10 : Z;
  ind_effort110 : Z
}.

(** [(dt['effort']==c).astype(int)]. *)
Definition dummy (e c : R) : Z := if Req_dec_T e c then 1%Z else 0%Z.

Definition add_dummies (r : RawDecision) : Decision :=
  {| wid := raw_wid r;
     netdistance := raw_netdistance r;
     wage := raw_wage r;
     today := raw_today r;
     prediction := raw_prediction r;
     pb := raw_workdone1 r / 10;
     effort := raw_effort r;
     ind_effort10 := dummy (raw_effort r) 10;
     ind_effort110 := dummy (raw_effort r) 110 |}.

(** [dt = dt[dt.bonusoffered != 1]], then the three new columns. *)
Definition prepare (dt : list RawDecision) : list Decision :=
  map add_dummies
      (filter (fun r => negb (raw_bonusoffered r =? 1)%Z) dt).

(** [dt[dt.wid.isin(ind_keep.wid_col1)]]: the rows of the subjects on the
    list of identifiers to keep. *)
Definition keep_subjects (ind_keep : list Z) (dt : list RawDecision)
  : list RawDecision :=
  filter (fun r => existsb (Z.eqb (raw_wid r)) ind_keep) dt.

(** The primary sample: the subjects to keep, then the rows without a
    bonus, with their dummies. *)
Definition primary_sample (ind_keep : list Z) (dt : list RawDecision)
  : list Decision :=
  prepare (keep_subjects ind_keep dt).

Record Params : Type := mkParams {
  beta : R; betahat : R; delta : R; gamma : R; phi : R; alpha : R; sigma : R
}.

(** [beta, betahat, delta, gamma, phi, alpha, sigma = params]. *)
Definition unpack (params : list R) : py Params :=
  match params with
  | [b; bh; d; g; ph; a; s] => Ok (mkParams b bh d g ph a s)
  | _ => Raise ValueError
  end.

(** [prob[i] = x] for an index in range. *)
Fixpoint list_set (l : list R) (i : nat) (x : R) : list R :=
  match l, i with
  | [], _ => []
  | _ :: t, O => x :: t
  | a :: t, S i' => a :: list_set t i' x
  end.

Definition Req_bool (a b : R) : bool :=
  if Req_dec_T a b then true else false.

(** [[i for i in range(0,len(prob)) if prob[i]==c]]. *)
Definition index_eq (prob : list R) (c : R) : list nat :=
  filter (fun i => Req_bool (nth i prob 0) c) (seq 0 (length prob)).

(** [for i in idxs: prob[i] = c]. *)
Definition assign_all (c : R) (idxs : list nat) (prob : list R) : list R :=
  fold_left (fun pr i => list_set pr i c) idxs prob.

(** The two index lists are taken first, then the two loops run. *)
Definition clamp (prob : list R) : list R :=
  let index_p0 := index_eq prob 0 in
  let index_p1 := index_eq prob 1 in
  let prob0 := assign_all (1 / 10000) index_p0 prob in
  assign_all (1 - 1 / 10000) index_p1 prob0.

Section Likelihood.

Variable Phi : R -> R.

(** The exponent [1/(gamma-1)] is a real power: the model follows NumPy
    where the base is positive and [gamma] is not 1.  Elsewhere NumPy gives
    0 (a zero base), [nan] (a negative base) or divides by zero
    ([gamma = 1]), and the value of the model has no meaning. *)
Definition predchoice (p : Params) (d : Decision) : R :=
  Rpower (phi p * pow_int (delta p) (netdistance d)
          * pow_int (beta p) (today d)
          * pow_int (betahat p) (prediction d) * wage d)
         (1 / (gamma p - 1))
  - pb d * alpha p.

(** One entry of [prob], before the clamping loops. *)
Definition prob_entry (p : Params) (d : Decision) : R :=
  IZR (1 - ind_effort10 d - ind_effort110 d)
  * norm_pdf (effort d) (predchoice p d) (sigma p)
  + IZR (ind_effort10 d)
    * (1 - norm_cdf Phi ((predchoice p d - effort d) / sigma p) 0 1)
  + IZR (ind_effort110 d)
    * norm_cdf Phi ((predchoice p d - effort d) / sigma p) 0 1.

Definition negloglike (params : list R) (dt : list Decision) : py xreal :=
  p <- unpack params ;;
  let prob := map (prob_entry p) dt in
  Ok (xneg (np_sum_x (map np_log (clamp prob)))).

(** *** Gradient contributions *)

(** [autograd.grad], [autograd.hessian] and [np.linalg.inv]. *)
Variable grad : (list R -> py xreal) -> list R -> list R.
Variable hessian : (list R -> py xreal) -> list R -> matrix.
Variable linalg_inv : matrix -> py matrix.

(** The gradient of [negloglike] on a frame of one row. *)
Definition gradfun (parameters : list R) (d : Decision) : list R :=
  grad (fun p => negloglike p [d]) parameters.

(** [zip] over the unpacked rows: the columns, as long as the shortest
    row. *)
Definition zip_star (rows : matrix) : matrix :=
  match rows with
  | [] => []
  | r :: rs =>
      fold_left (fun acc r' => map (fun p => fst p ++ [snd p]) (combine acc r'))
                rs (map (fun a => [a]) r)
  end.

(** [G += np.outer(g, g)] on a [k] by [k] matrix: a one-element [g]
    broadcasts, any other length than [k] raises. *)
Definition add_outer (k : nat) (G : matrix) (g : list R) : py matrix :=
  if (length g =? k)%nat then Ok (madd G (np_outer g g))
  else match g with
       | [a] => Ok (map (map (fun e => e + a * a)) G)
       | _ => Raise ValueError
       end.

Fixpoint cluster_loop (k : nat) (dg : list (Z * list R)) (wids : list Z)
                      (G : matrix) : py matrix :=
  match wids with
  | [] => Ok G
  | w :: rest =>
      let ind_grad :=
        map np_sum
            (zip_star (map snd (filter (fun r => (fst r =? w)%Z) dg))) in
      G' <- add_outer k G ind_grad ;;
      cluster_loop k dg rest G'
  end.

Definition gradcontr (dt : list Decision) (parameters : list R) : py matrix :=
  let k := length parameters in
  let vsingle_grad := map (gradfun parameters) dt in
  let dg := combine (map wid dt) vsingle_grad in
  cluster_loop k dg (np_unique (map wid dt)) (np_zeros2 k k).

(** *** Cluster-robust standard errors and tests *)

(** [(n-1)/(n-k) * j/(j-1)] on the three lengths: the product is taken
    before the second division. *)
Definition adj_effort (n k j : Z) : py R :=
  a <- py_div (n - 1) (n - k) ;;
  py_fdiv (a * IZR j) (j - 1).

Definition adj (res : list R) (dt : list Decision) : py R :=
  adj_effort (Z.of_nat (length dt)) (Z.of_nat (length res))
           (Z.of_nat (length (np_unique (map wid dt)))).

Definition varcov_estimates (res : list R) (dt : list Decision) : py matrix :=
  hess_inv <- linalg_inv (hessian (fun p => negloglike p dt) res) ;;
  grad_contribution <- gradcontr dt res ;;
  a <- adj res dt ;;
  Ok (mscale a (matmul (matmul hess_inv grad_contribution) hess_inv)).

Definition se_cluster (res : list R) (dt : list Decision) : py (list R) :=
  V <- varcov_estimates res dt ;; Ok (map sqrt (np_diag V)).

(** [(np.array(res[0:3])-1)/np.array(se_cluster[0:3])]. *)
Definition zvalues_1 (res se : list R) : py (list R) :=
  np_map2 Rdiv (map (fun r => r - 1) (firstn 3 res)) (firstn 3 se).

Definition pvalues_1 (zs : list R) : list R := map (pvalue_abs Phi) zs.

(** [res[5]/se_cluster[5]]. *)
Definition zvalue_a (res se : list R) : py R :=
  r <- py_index res 5 ;; s <- py_index se 5 ;; Ok (r / s).

Definition pvalue_a (z : R) : R := pvalue_abs Phi z.

(** The table and the printed summary. *)
Record Table : Type := mkTable {
  estimates : list R;
  standarderr : list R;
  n_obs : nat;
  n_participants : nat;
  loglik : R;
  p_ones : list R;
  p_alpha : R
}.

Definition table (sol : OptimizeResult) (dt : list Decision) : py Table :=
  let res := x sol in
  se <- se_cluster res dt ;;
  zs <- zvalues_1 res se ;;
  za <- zvalue_a res se ;;
  Ok {| estimates := res;
        standarderr := se;
        n_obs := length dt;
        n_participants := length (np_unique (map wid dt));
        loglik := - fun_ sol;
        p_ones := pvalues_1 zs;
        p_alpha := pvalue_a za |}.

End Likelihood.

End Effort.

(** ** The specification's formulas *)

Module Spec.

(** The weight on the other player's payoff, [alpha s + beta r + gamma q +
    delta v]. *)
Definition weight (a b g d : R) (s r q v : R) : R :=
  a * s + b * r + g * q + d * v.

(** [U = (1 - w) own + w other]. *)
Definition utility (w own other : R) : R := (1 - w) * own + w * other.

Definition softmax2 (a b : R) : R := exp a / (exp a + exp b).

Definition logistic (t : R) : R := 1 / (1 + exp (- t)).

(** The Bernoulli mass of a binary outcome [y] with success probability
    [p]. *)
Definition bernoulli (p : R) (y : Z) : R :=
  if (y =? 1)%Z then p else 1 - p.

(** The two utilities of an observation and the likelihood of its
    choice, for the parameters [(a, b, g, d)] and the sensitivity
    [exp ls]. *)
Definition U_X (a b g d : R) (o : DiscreteChoice.Choice) : R :=
  utility (weight a b g d (DiscreteChoice.s_x o) (DiscreteChoice.r_x o)
                  (DiscreteChoice.q o) (DiscreteChoice.v o))
          (DiscreteChoice.self_x o) (DiscreteChoice.other_x o).

Definition U_Y (a b g d : R) (o : DiscreteChoice.Choice) : R :=
  utility (weight a b g d (DiscreteChoice.s_y o) (DiscreteChoice.r_y o)
                  (DiscreteChoice.q o) (DiscreteChoice.v o))
          (DiscreteChoice.self_y o) (DiscreteChoice.other_y o).

Definition choice_prob (a b g d ls : R) (o : DiscreteChoice.Choice) : R :=
  softmax2 (exp ls * U_X a b g d o) (exp ls * U_Y a b g d o).

Definition choice_likelihood (a b g d ls : R) (o : DiscreteChoice.Choice) : R :=
  bernoulli (choice_prob a b g d ls o) (DiscreteChoice.choice_x o).

(** The parameter vectors and rows on which the real-number model of the
    effort likelihood follows NumPy: positive bases under the powers, an
    exponent [1/(gamma-1)] that exists, a positive standard deviation. *)
Definition valid_params (b bh dl g ph al sg : R) : Prop :=
  0 < b /\ 0 < bh /\ 0 < dl /\ g <> 1 /\ 0 < ph /\ 0 < sg.

Definition positive_wage (r : Effort.RawDecision) : Prop :=
  0 < Effort.raw_wage r.


Definition binary (o : DiscreteChoice.Choice) : Prop :=
  (DiscreteChoice.choice_x o = 0 \/ DiscreteChoice.choice_x o = 1)%Z.

(** The density of a normal distribution with mean [mu] and standard
    deviation [sd]. *)
Definition gauss_density (mu sd e : R) : R :=
  / (sd * sqrt (2 * PI)) * exp (- ((e - mu) * (e - mu)) / (2 * (sd * sd))).

(** The predicted optimal effort,
    [(phi delta^netdistance beta^today betahat^prediction wage)^(1/(gamma-1))
     - pb alpha]. *)
Definition e_star (b bh dl g ph al : R) (d : Effort.Decision) : R :=
  Rpower (ph * powerRZ dl (Effort.netdistance d) * powerRZ b (Effort.today d)
          * powerRZ bh (Effort.prediction d) * Effort.wage d)
         (/ (g - 1))
  - Effort.pb d * al.

(** The censored likelihood of the effort model. *)
Definition tobit_likelihood (Phi : R -> R) (estar sd e : R) : R :=
  if Req_dec_T e 10 then 1 - Phi ((estar - 10) / sd)
  else if Req_dec_T e 110 then Phi ((estar - 110) / sd)
  else gauss_density estar sd e.

(** The clamping of one probability. *)
Definition clamp_entry (p : R) : R :=
  if Req_dec_T p 0 then 1 / 10000
  else if Req_dec_T p 1 then 1 - 1 / 10000
  else p.

(** A matrix equals its transpose. *)
Definition symmetric (M : matrix) : Prop := transpose M = M.

(** An [n] by [n] matrix whose entries mirror across the diagonal. *)
Definition is_square (n : nat) (M : matrix) : Prop :=
  length M = n /\ Forall (fun row => length row = n) M.

Definition mirror (n : nat) (M : matrix) : Prop :=
  is_square n M
  /\ forall i j, (i < n)%nat -> (j < n)%nat -> entry M i j = entry M j i.

(** The number of distinct cluster identifiers. *)
Definition distinct_count (ids : list Z) : nat :=
  length (nodup Z.eq_dec ids).

(** [Adj = (N-1)/(N-K) * J/(J-1)]. *)
Definition Adj (N K J : nat) : R :=
  (INR N - 1) / (INR N - INR K) * (INR J / (INR J - 1)).

(** The sum of [f 0 .. f (n-1)]. *)
Definition sum_upto (n : nat) (f : nat -> R) : R :=
  fold_right Rplus 0 (map f (seq 0 n)).

(** The entry [(i, j)] of [Adj * Hinv G Hinv] for [k] by [k] matrices:
    [Adj * sum_q (sum_p Hinv[i,p] G[p,q]) Hinv[q,j]]. *)
Definition sandwich_entry (a : R) (k : nat) (Hinv G : matrix) (i j : nat) : R :=
  a * sum_upto k (fun q =>
        sum_upto k (fun p => entry Hinv i p * entry G p q) * entry Hinv q j).

(** A matrix is [Adj * Hinv G Hinv] when it is [k] by [k] with those
    entries. *)
Definition is_sandwich (a : R) (k : nat) (Hinv G V : matrix) : Prop :=
  length V = k
  /\ forall i j, (i < k)%nat -> (j < k)%nat ->
       entry V i j = sandwich_entry a k Hinv G i j.

(** A vector holds the square roots of the diagonal of a [k] by [k]
    matrix. *)
Definition sqrt_diagonal (k : nat) (V : matrix) (se : list R) : Prop :=
  length se = k
  /\ forall i, (i < k)%nat -> nth i se 0 = sqrt (entry V i i).





(** A sequence of outcomes indexed by the observation count settles on
    [l]: from some count on every outcome is a value within [eps] of
    [l]. *)
Definition tends_to (f : Z -> py R) (l : R) : Prop :=
  forall eps : R, 0 < eps ->
    exists n0 : Z, forall n : Z, (n0 <= n)%Z ->
      exists a : R, f n = Ok a /\ Rabs (a - l) < eps.

(** The same optimiser result, flagged as converged. *)
Definition converged (sol : OptimizeResult) : OptimizeResult :=
  {| x := x sol; fun_ := fun_ sol; success := true; nit := nit sol |}.

(** A report surfaces non-convergence when a result flagged as not
    converged never yields the report of the converged one. *)
Definition surfaces_nonconvergence (T : Type) (report : OptimizeResult -> T)
  : Prop :=
  forall sol, success sol = false -> report sol <> report (converged sol).

(** The slope of the logarithm of the Bernoulli mass of a two-way softmax
    with arguments [A] and [B], when [A] moves at rate [dA] and [B] at rate
    [dB]; [eA] and [eB] are the two exponentials. *)
Definition log_mass_slope (eA eB dA dB : R) (y : Z) : R :=
  if (y =? 1)%Z then (dA - dB) * eB / (eA + eB)
  else (dB - dA) * eA / (eB + eA).

(** The quadratic form [x^T M x] of a [k] by [k] matrix. *)
Definition quad (k : nat) (x : list R) (M : matrix) : R :=
  sum_upto k (fun i =>
    sum_upto k (fun j => nth i x 0 * entry M i j * nth j x 0)).

(** A symmetric [k] by [k] matrix whose quadratic form is never
    negative. *)
Definition psd (k : nat) (M : matrix) : Prop :=
  mirror k M /\ forall x : list R, 0 <= quad k x M.

(** The same decision with the two allocations exchanged: what was
    offered as X is offered as Y, and the choice is flipped. *)
Definition swap_alternatives (o : DiscreteChoice.Choice)
  : DiscreteChoice.Choice :=
  {| DiscreteChoice.sid := DiscreteChoice.sid o;
     DiscreteChoice.s_x := DiscreteChoice.s_y o;
     DiscreteChoice.r_x := DiscreteChoice.r_y o;
     DiscreteChoice.s_y := DiscreteChoice.s_x o;
     DiscreteChoice.r_y := DiscreteChoice.r_x o;
     DiscreteChoice.q := DiscreteChoice.q o;
     DiscreteChoice.v := DiscreteChoice.v o;
     DiscreteChoice.self_x := DiscreteChoice.self_y o;
     DiscreteChoice.other_x := DiscreteChoice.other_y o;
     DiscreteChoice.self_y := DiscreteChoice.self_x o;
     DiscreteChoice.other_y := DiscreteChoice.other_x o;
     DiscreteChoice.choice_x := (1 - DiscreteChoice.choice_x o)%Z |}.

(** The two-sided test of an estimate against a reference value. *)
Definition z_stat (est ref se : R) : R := (est - ref) / se.
Definition p_two_sided (Phi : R -> R) (z : R) : R := 2 * (1 - Phi (Rabs z)).

(** The statistic comparing two independent estimates. *)
Definition diff_stat (t1 var1 t2 var2 : R) : R :=
  Rabs (t1 - t2) / sqrt (var1 + var2).

End Spec.
Import Spec.

(** * Properties *)

(** ** Sums and logarithms *)

Lemma np_sum_from (l : list R) (a : R) :
  fold_left Rplus l a = a + np_sum l.
Proof.
  unfold np_sum. revert a.
  induction l as [|h t IH]; intros a; simpl.
  - ring.
  - rewrite (IH (a + h)), (IH (0 + h)). ring.
Qed.

Lemma np_sum_cons (h : R) (t : list R) : np_sum (h :: t) = h + np_sum t.
Proof.
  unfold np_sum at 1. simpl. rewrite np_sum_from. ring.
Qed.





(** ** The discrete-choice likelihood *)

Section ChoiceLikelihood.

Import DiscreteChoice.

Variables a b g d ls : R.

Lemma dot_indicators (s r q' v' : R) :
  dot [s; r; q'; v'] (beta_of [a; b; g; d; ls]) = weight a b g d s r q' v'.
Proof.
  unfold dot, np_sum, beta_of, weight. simpl. ring.
Qed.

Lemma uleft_utility (o : Choice) :
  uleft [a; b; g; d; ls] o
  = exp ls * utility (weight a b g d (s_x o) (r_x o) (q o) (v o))
                     (self_x o) (other_x o).
Proof.
  unfold uleft, indicators_x. rewrite dot_indicators. reflexivity.
Qed.

Lemma uright_utility (o : Choice) :
  uright [a; b; g; d; ls] o
  = exp ls * utility (weight a b g d (s_y o) (r_y o) (q o) (v o))
                     (self_y o) (other_y o).
Proof.
  unfold uright, indicators_y. rewrite dot_indicators. reflexivity.
Qed.

End ChoiceLikelihood.

Lemma softmax2_complement (u w : R) : exp w / (exp u + exp w) = 1 - softmax2 u w.
Proof.
  unfold softmax2.
  pose proof (exp_pos u). pose proof (exp_pos w).
  field. lra.
Qed.

Lemma softmax2_logistic (u w : R) : softmax2 u w = logistic (u - w).
Proof.
  unfold softmax2, logistic.
  pose proof (exp_pos u). pose proof (exp_pos w).
  pose proof (exp_pos (- (u - w))).
  replace (exp w) with (exp u * exp (- (u - w))).
  - assert (0 < exp u * exp (- (u - w))) by (apply Rmult_lt_0_compat; lra).
    field. split; lra.
  - rewrite <- exp_plus. f_equal. ring.
Qed.


Lemma prob_obs_bernoulli (a b g d ls : R) (o : DiscreteChoice.Choice) :
  binary o ->
  DiscreteChoice.probs_entry [a; b; g; d; ls] o = choice_likelihood a b g d ls o.
Proof.
  intros Hy.
  unfold DiscreteChoice.probs_entry, choice_likelihood, choice_prob, U_X, U_Y.
  rewrite uleft_utility, uright_utility.
  rewrite softmax2_complement.
  unfold bernoulli, pow_int, softmax2.
  destruct Hy as [Hy|Hy]; rewrite Hy; simpl; ring.
Qed.

(** C3.  For a parameter vector [(alpha, beta, gamma, delta, log sigma)]
    and a batch of observations with binary choices, every entry of the
    vector [probs] that [loglike_dummy] takes the logarithm of is the
    Bernoulli mass, under the observed choice, of the two-alternative
    softmax probability
    [exp(sigma U_X) / (exp(sigma U_X) + exp(sigma U_Y))], where each utility
    is [(1 - w) own + w other] with [w] the indicators weighted by the
    parameters; and that probability is the logistic function of
    [sigma (U_X - U_Y)]. *)
Theorem loglike_dummy_bernoulli_softmax :
  forall (a b g d ls : R) (rows : list DiscreteChoice.Choice),
    (forall o, In o rows -> binary o) ->
    DiscreteChoice.probs [a; b; g; d; ls] rows
    = Ok (map (choice_likelihood a b g d ls) rows)
    /\ DiscreteChoice.loglike_dummy [a; b; g; d; ls] rows
      = Ok (DiscreteChoice.nll_of_probs
              (map (choice_likelihood a b g d ls) rows))
    /\ forall o, choice_prob a b g d ls o
                = logistic (exp ls * (U_X a b g d o - U_Y a b g d o)).
Proof.
  intros a b g d ls rows Hbin.
  assert (Hp : DiscreteChoice.probs [a; b; g; d; ls] rows
               = Ok (map (choice_likelihood a b g d ls) rows)).
  { unfold DiscreteChoice.probs. simpl. f_equal.
    apply map_ext_in. intros o Ho. apply prob_obs_bernoulli. auto. }
  split; [exact Hp|]. split.
  - unfold DiscreteChoice.loglike_dummy. rewrite Hp. reflexivity.
  - intros o. unfold choice_prob. rewrite softmax2_logistic. f_equal. ring.
Qed.

Lemma loglike_dummy_bernoulli_softmax_witness :
  let o := DiscreteChoice.mkChoice 7 1 0 0 1 0 0 10 20 15 15 1 in
  DiscreteChoice.probs [0; 0; 0; 0; 0] [o]
  = Ok [choice_likelihood 0 0 0 0 0 o].
Proof.
  intros o.
  refine (proj1 (loglike_dummy_bernoulli_softmax 0 0 0 0 0 [o] _)).
  intros o' [<-|[]]. right. reflexivity.
Defined.

(** ** The delta method *)

Lemma py_last_app (A : Type) (l : list A) (a : A) :
  py_last (l ++ [a]) = Ok a.
Proof.
  unfold py_last. destruct l as [|h t]; simpl; [reflexivity|].
  f_equal. apply last_last.
Qed.

Lemma pow_int_2 (r : R) : pow_int r 2 = r * r.
Proof. unfold pow_int. simpl. ring. Qed.

(** C6.  For the sensitivity estimated on the log scale, the reported
    standard error [sqrt(exp(v)^2 * se^2)] is [exp(v) * se] for every
    estimate [v] and every non-negative standard error [se] of [v]; it is
    the last entry of the reported list, the other entries are kept. *)
Theorem delta_method_se :
  forall (vhat se : R), 0 <= se ->
    DiscreteChoice.delta_se vhat se = exp vhat * se
    /\ forall (res ses : list R),
        DiscreteChoice.se_delta (res ++ [vhat]) (ses ++ [se])
        = Ok (ses ++ [exp vhat * se]).
Proof.
  intros vhat se Hse.
  assert (Hd : DiscreteChoice.delta_se vhat se = exp vhat * se).
  { unfold DiscreteChoice.delta_se. rewrite !pow_int_2.
    replace (exp vhat * exp vhat * (se * se)) with (Rsqr (exp vhat * se))
      by (unfold Rsqr; ring).
    apply sqrt_Rsqr.
    apply Rmult_le_pos; [left; apply exp_pos|exact Hse]. }
  split; [exact Hd|].
  intros res ses. unfold DiscreteChoice.se_delta.
  rewrite !py_last_app. simpl. rewrite Hd, removelast_last. reflexivity.
Qed.

Lemma delta_method_se_witness :
  DiscreteChoice.delta_se 0 2 = exp 0 * 2.
Proof.
  apply (proj1 (@delta_method_se 0 2 ltac:(lra))).
Defined.

(** ** The clamping loops *)

Section Clamp.

Import Effort.

Lemma list_set_length (l : list R) (i : nat) (c : R) :
  length (list_set l i c) = length l.
Proof.
  revert i. induction l as [|h t IH]; intros [|i]; simpl; auto.
Qed.

Lemma nth_list_set (l : list R) (i j : nat) (c d : R) :
  nth j (list_set l i c) d
  = if ((j =? i) && (j <? length l))%nat then c else nth j l d.
Proof.
  revert i j. induction l as [|h t IH]; intros i j.
  - simpl. rewrite andb_false_r. destruct i; reflexivity.
  - destruct i as [|i], j as [|j]; simpl; try reflexivity.
    rewrite IH. reflexivity.
Qed.

Lemma assign_all_length (c : R) (idxs : list nat) (l : list R) :
  length (assign_all c idxs l) = length l.
Proof.
  unfold assign_all. revert l.
  induction idxs as [|i idxs IH]; intros l; simpl; [reflexivity|].
  rewrite IH. apply list_set_length.
Qed.

Lemma nth_assign_all (c : R) (idxs : list nat) (l : list R) (j : nat) (d : R) :
  nth j (assign_all c idxs l) d
  = if (existsb (Nat.eqb j) idxs && (j <? length l))%nat then c
    else nth j l d.
Proof.
  unfold assign_all. revert l.
  induction idxs as [|i idxs IH]; intros l; simpl; [reflexivity|].
  rewrite IH, list_set_length, nth_list_set.
  destruct (j =? i)%nat, (existsb (Nat.eqb j) idxs), (j <? length l)%nat;
    reflexivity.
Qed.

Lemma Req_bool_true (a c : R) : Req_bool a c = true <-> a = c.
Proof.
  unfold Req_bool. destruct (Req_dec_T a c); split; auto; discriminate.
Qed.

Lemma index_eq_mem (prob : list R) (c : R) (j : nat) :
  existsb (Nat.eqb j) (index_eq prob c)
  = ((j <? length prob)%nat && Req_bool (nth j prob 0) c).
Proof.
  apply eq_true_iff_eq.
  rewrite existsb_exists, andb_true_iff, Nat.ltb_lt.
  unfold index_eq. split.
  - intros [i [Hi Hji]]. apply Nat.eqb_eq in Hji. subst i.
    apply filter_In in Hi. destruct Hi as [Hs Hc].
    apply in_seq in Hs. split; [lia|exact Hc].
  - intros [Hlt Hc]. exists j. split; [|apply Nat.eqb_refl].
    apply filter_In. split; [apply in_seq; lia|exact Hc].
Qed.

Lemma nth_clamp (prob : list R) (j : nat) :
  (j < length prob)%nat ->
  nth j (clamp prob) 0 = clamp_entry (nth j prob 0).
Proof.
  intros Hj. unfold clamp.
  rewrite !nth_assign_all, assign_all_length, !index_eq_mem.
  apply Nat.ltb_lt in Hj. rewrite Hj. simpl. rewrite !andb_true_r.
  unfold clamp_entry, Req_bool.
  destruct (Req_dec_T (nth j prob 0) 0) as [H0|H0];
    destruct (Req_dec_T (nth j prob 0) 1) as [H1|H1]; try reflexivity.
  rewrite H0 in H1. exfalso. lra.
Qed.

Lemma clamp_length (prob : list R) : length (clamp prob) = length prob.
Proof.
  unfold clamp. now rewrite !assign_all_length.
Qed.

Lemma clamp_map (prob : list R) : clamp prob = map clamp_entry prob.
Proof.
  apply (nth_ext _ _ 0 (clamp_entry 0)).
  - now rewrite clamp_length, length_map.
  - intros j Hj. rewrite clamp_length in Hj.
    rewrite (map_nth clamp_entry). now apply nth_clamp.
Qed.

End Clamp.

(** C10.  The clamping step of [negloglike] replaces an entry that is
    exactly 0 by 1e-4 and an entry that is exactly 1 by 1 - 1e-4 and
    leaves every other entry as it is; on a vector with no entry equal to
    0 or 1 it is the identity. *)
Theorem clamp_frame :
  forall prob : list R,
    Effort.clamp prob = map clamp_entry prob
    /\ (forall p, p <> 0 -> p <> 1 -> clamp_entry p = p)
    /\ clamp_entry 0 = 1 / 10000
    /\ clamp_entry 1 = 1 - 1 / 10000
    /\ ((forall p, In p prob -> p <> 0 /\ p <> 1) -> Effort.clamp prob = prob).
Proof.
  intros prob.
  assert (Hid : forall p, p <> 0 -> p <> 1 -> clamp_entry p = p).
  { intros p H0 H1. unfold clamp_entry.
    destruct (Req_dec_T p 0); [contradiction|].
    destruct (Req_dec_T p 1); [contradiction|reflexivity]. }
  split; [apply clamp_map|]. split; [exact Hid|]. split; [|split].
  - unfold clamp_entry. destruct (Req_dec_T 0 0); [reflexivity|contradiction].
  - unfold clamp_entry. destruct (Req_dec_T 1 0); [lra|].
    destruct (Req_dec_T 1 1); [reflexivity|contradiction].
  - intros H. rewrite clamp_map.
    rewrite <- (map_id prob) at 2. apply map_ext_in.
    intros p Hp. destruct (H p Hp). now apply Hid.
Qed.

Lemma clamp_frame_witness :
  Effort.clamp [1 / 2; 1 / 4] = [1 / 2; 1 / 4].
Proof.
  refine (proj2 (proj2 (proj2 (proj2 (clamp_frame [1 / 2; 1 / 4])))) _).
  intros p [<-|[<-|[]]]; split; lra.
Defined.

(** ** The effort likelihood *)

Lemma norm_cdf_std (Phi : R -> R) (z : R) : norm_cdf Phi z 0 1 = Phi z.
Proof.
  unfold norm_cdf. f_equal. field.
Qed.

Lemma sqrt_2PI_pos : 0 < sqrt (2 * PI).
Proof.
  apply sqrt_lt_R0. pose proof PI_RGT_0. lra.
Qed.

Lemma norm_pdf_gauss (e mu sd : R) :
  sd <> 0 -> norm_pdf e mu sd = gauss_density mu sd e.
Proof.
  intros Hsd. unfold norm_pdf, gauss_density.
  pose proof sqrt_2PI_pos as Hs.
  replace (- Rsqr ((e - mu) / sd) / 2)
    with (- ((e - mu) * (e - mu)) / (2 * (sd * sd)))
    by (unfold Rsqr; field; exact Hsd).
  field. split; [lra|exact Hsd].
Qed.


Lemma predchoice_e_star (b bh dl g ph al sg : R) (d : Effort.Decision) :
  Effort.predchoice (Effort.mkParams b bh dl g ph al sg) d
  = e_star b bh dl g ph al d.
Proof.
  unfold Effort.predchoice, e_star, pow_int. simpl.
  do 2 f_equal. unfold Rdiv. ring.
Qed.

Lemma prob_obs_tobit (Phi : R -> R) (b bh dl g ph al sg : R)
      (r : Effort.RawDecision) :
  sg <> 0 ->
  let d := Effort.add_dummies r in
  Effort.prob_entry Phi (Effort.mkParams b bh dl g ph al sg) d
  = tobit_likelihood Phi (e_star b bh dl g ph al d) sg (Effort.effort d).
Proof.
  intros Hsg d. unfold Effort.prob_entry.
  rewrite !norm_cdf_std, predchoice_e_star, (norm_pdf_gauss _ _ Hsg).
  unfold tobit_likelihood, d. simpl. unfold Effort.dummy.
  destruct (Req_dec_T (Effort.raw_effort r) 10) as [E10|E10];
    destruct (Req_dec_T (Effort.raw_effort r) 110) as [E110|E110];
    simpl.
  - exfalso. lra.
  - rewrite E10. ring.
  - rewrite E110. ring.
  - ring.
Qed.

Lemma negloglike_tobit_likelihood_aux (Phi : R -> R) (b bh dl g ph al sg : R)
      (raw : list Effort.RawDecision) :
  0 < sg ->
  let dt := Effort.prepare raw in
  let prob :=
    map (fun d => tobit_likelihood Phi (e_star b bh dl g ph al d) sg
                                   (Effort.effort d)) dt in
  map (Effort.prob_entry Phi (Effort.mkParams b bh dl g ph al sg)) dt = prob
  /\ Effort.negloglike Phi [b; bh; dl; g; ph; al; sg] dt
    = Ok (xneg (np_sum_x (map np_log (Effort.clamp prob)))).
Proof.
  intros Hsg dt prob.
  assert (Hp : map (Effort.prob_entry Phi (Effort.mkParams b bh dl g ph al sg)) dt
               = prob).
  { unfold prob, dt, Effort.prepare. rewrite !map_map.
    apply map_ext. intros r. apply prob_obs_tobit. lra. }
  split; [exact Hp|].
  unfold Effort.negloglike. simpl. rewrite Hp. reflexivity.
Qed.

(** C4.  For valid parameters ([beta], [betahat], [delta], [phi] and
    [sigma] positive, [gamma] different from 1) and a prepared batch with
    positive wages, so that the base of the power is positive and the
    exponent exists, the predicted effort [negloglike] computes is
    [e* = (phi delta^netdistance beta^today betahat^prediction wage)^(1/(gamma-1)) - pb alpha],
    and the entry of [prob] for an observation is the Gaussian density of
    the observed effort around [e*] with standard deviation [sigma], except
    that an effort of 10 gives [1 - Phi((e* - 10)/sigma)] and an effort of
    110 gives [Phi((e* - 110)/sigma)].  [negloglike] is the negated sum of
    the logarithms of this vector once the clamping loops have run. *)
Theorem negloglike_tobit_likelihood :
  forall (Phi : R -> R) (b bh dl g ph al sg : R)
         (raw : list Effort.RawDecision),
    valid_params b bh dl g ph al sg ->
    Forall positive_wage raw ->
    let p := Effort.mkParams b bh dl g ph al sg in
    let dt := Effort.prepare raw in
    map (Effort.predchoice p) dt = map (e_star b bh dl g ph al) dt
    /\ map (Effort.prob_entry Phi p) dt
       = map (fun d => tobit_likelihood Phi (e_star b bh dl g ph al d) sg
                                        (Effort.effort d)) dt
    /\ Effort.negloglike Phi [b; bh; dl; g; ph; al; sg] dt
       = Ok (xneg (np_sum_x (map np_log
                (Effort.clamp (map (Effort.prob_entry Phi p) dt))))).
Proof.
  intros Phi b bh dl g ph al sg raw Hval _ p dt.
  assert (Hsg : 0 < sg) by apply Hval.
  split; [|split].
  - apply map_ext. intros d. apply predchoice_e_star.
  - exact (proj1 (negloglike_tobit_likelihood_aux Phi b bh dl g ph al raw Hsg)).
  - reflexivity.
Qed.

Lemma negloglike_tobit_likelihood_witness :
  let raw := [Effort.mkRaw 1 2 (1 / 10) 0 1 10 10 0] in
  let p := Effort.mkParams 1 1 1 2 500 7 40 in
  valid_params 1 1 1 2 500 7 40
  /\ Forall positive_wage raw
  /\ map (Effort.prob_entry (fun _ => 1 / 2) p) (Effort.prepare raw)
     = map (fun d => tobit_likelihood (fun _ => 1 / 2)
                       (e_star 1 1 1 2 500 7 d) 40 (Effort.effort d))
           (Effort.prepare raw).
Proof.
  intros raw p.
  assert (Hval : valid_params 1 1 1 2 500 7 40).
  { unfold valid_params. repeat split; lra. }
  assert (Hw : Forall positive_wage raw).
  { repeat constructor. unfold positive_wage. simpl. lra. }
  split; [exact Hval|]. split; [exact Hw|].
  exact (proj1 (proj2 (@negloglike_tobit_likelihood (fun _ => 1 / 2)
                         1 1 1 2 500 7 40 raw Hval Hw))).
Defined.

(** ** Finiteness and sign of the two objectives *)













(** ** Symmetry of the gradient outer-product matrix *)

Section Symmetry.

Lemma nth_combine_min (A B : Type) (l : list A) (l' : list B) (i : nat)
      (x : A) (y : B) :
  (i < Nat.min (length l) (length l'))%nat ->
  nth i (combine l l') (x, y) = (nth i l x, nth i l' y).
Proof.
  revert l' i. induction l as [|h t IH]; intros [|h' t'] i Hi; simpl in *;
    try lia.
  destruct i as [|i]; [reflexivity|]. apply IH. lia.
Qed.

Lemma vadd_length (u w : list R) :
  length (vadd u w) = Nat.min (length u) (length w).
Proof.
  unfold vadd. now rewrite length_map, length_combine.
Qed.

Lemma nth_vadd (u w : list R) (j : nat) :
  (j < Nat.min (length u) (length w))%nat ->
  nth j (vadd u w) 0 = nth j u 0 + nth j w 0.
Proof.
  intros Hj. unfold vadd.
  rewrite (nth_indep _ 0 ((fun p => fst p + snd p) (0, 0)))
    by (rewrite length_map, length_combine; exact Hj).
  rewrite (map_nth (fun p => fst p + snd p)), (nth_combine_min _ _ _ _ Hj).
  reflexivity.
Qed.

Lemma madd_length (A B : matrix) :
  length (madd A B) = Nat.min (length A) (length B).
Proof.
  unfold madd. now rewrite length_map, length_combine.
Qed.

Lemma nth_madd (A B : matrix) (i : nat) :
  (i < Nat.min (length A) (length B))%nat ->
  nth i (madd A B) [] = vadd (nth i A []) (nth i B []).
Proof.
  intros Hi. unfold madd.
  rewrite (nth_indep _ [] ((fun p => vadd (fst p) (snd p)) ([], [])))
    by (rewrite length_map, length_combine; exact Hi).
  rewrite (map_nth (fun p => vadd (fst p) (snd p))),
    (nth_combine_min _ _ _ _ Hi).
  reflexivity.
Qed.

Lemma square_row (n : nat) (M : matrix) (i : nat) :
  is_square n M -> (i < n)%nat -> length (nth i M []) = n.
Proof.
  intros [Hl Hr] Hi. rewrite Forall_forall in Hr.
  apply Hr, nth_In. lia.
Qed.

Lemma mirror_madd (n m : nat) (A B : matrix) :
  mirror n A -> mirror m B -> mirror (Nat.min n m) (madd A B).
Proof.
  intros [SA HA] [SB HB].
  assert (Hlen : length (madd A B) = Nat.min n m).
  { rewrite madd_length. destruct SA as [-> _], SB as [-> _]. reflexivity. }
  assert (Hrow : forall i, (i < Nat.min n m)%nat ->
                           nth i (madd A B) [] = vadd (nth i A []) (nth i B [])).
  { intros i Hi. apply nth_madd.
    destruct SA as [-> _], SB as [-> _]. exact Hi. }
  split; [split|].
  - exact Hlen.
  - apply Forall_forall. intros row Hin.
    destruct (In_nth _ _ [] Hin) as [i [Hi <-]].
    rewrite Hlen in Hi. rewrite (Hrow i Hi), vadd_length.
    rewrite (square_row SA), (square_row SB); lia.
  - intros i j Hi Hj. unfold entry.
    rewrite (Hrow i Hi), (Hrow j Hj).
    rewrite !nth_vadd
      by (rewrite (square_row SA), (square_row SB); lia).
    fold (entry A i j) (entry B i j) (entry A j i) (entry B j i).
    rewrite (HA i j), (HB i j) by lia. reflexivity.
Qed.

Lemma nth_outer (u : list R) (i j : nat) :
  (i < length u)%nat ->
  entry (np_outer u u) i j = nth i u 0 * nth j u 0.
Proof.
  intros Hi. unfold entry, np_outer.
  rewrite (nth_indep _ [] ((fun x => map (fun y => x * y) u) 0))
    by (now rewrite length_map).
  rewrite (map_nth (fun x => map (fun y => x * y) u)).
  destruct (Nat.lt_ge_cases j (length u)) as [Hj|Hj].
  - rewrite (nth_indep _ 0 ((fun y => nth i u 0 * y) 0))
      by (now rewrite length_map).
    now rewrite (map_nth (fun y => nth i u 0 * y)).
  - rewrite (nth_overflow (map _ u)) by (now rewrite length_map).
    rewrite (nth_overflow u 0 Hj). ring.
Qed.

Lemma mirror_outer (u : list R) : mirror (length u) (np_outer u u).
Proof.
  split; [split|].
  - unfold np_outer. now rewrite length_map.
  - unfold np_outer. apply Forall_map, Forall_forall.
    intros x _. now rewrite length_map.
  - intros i j Hi Hj. rewrite !nth_outer by assumption. ring.
Qed.

Lemma mirror_zeros (k : nat) : mirror k (np_zeros2 k k).
Proof.
  unfold np_zeros2, np_zeros. split; [split|].
  - apply repeat_length.
  - apply Forall_forall. intros row Hin.
    apply repeat_spec in Hin. subst row. apply repeat_length.
  - intros i j Hi Hj. unfold entry.
    rewrite !(nth_indep _ [] (repeat 0 k)) by (rewrite repeat_length; lia).
    rewrite !nth_repeat. reflexivity.
Qed.

Lemma mirror_shift (n : nat) (G : matrix) (c : R) :
  mirror n G -> mirror n (map (map (fun e => e + c)) G).
Proof.
  intros [[Hl Hr] HG].
  assert (Hrow : forall i, (i < n)%nat ->
            nth i (map (map (fun e => e + c)) G) []
            = map (fun e => e + c) (nth i G [])).
  { intros i Hi.
    rewrite (nth_indep _ [] (map (fun e => e + c) []))
      by (rewrite length_map; lia).
    apply (map_nth (map (fun e => e + c))). }
  assert (Hent : forall i j, (i < n)%nat -> (j < n)%nat ->
            entry (map (map (fun e => e + c)) G) i j = entry G i j + c).
  { intros i j Hi Hj. unfold entry. rewrite (Hrow i Hi).
    rewrite (nth_indep _ 0 ((fun e => e + c) 0))
      by (rewrite length_map, (square_row (conj Hl Hr)); lia).
    apply (map_nth (fun e => e + c)). }
  split; [split|].
  - now rewrite length_map.
  - apply Forall_map. revert Hr. apply Forall_impl.
    intros row Hrw. now rewrite length_map.
  - intros i j Hi Hj. rewrite !Hent, (HG i j) by assumption. reflexivity.
Qed.

Lemma mirror_symmetric (n : nat) (M : matrix) : mirror n M -> symmetric M.
Proof.
  intros [SM HM]. pose proof SM as [Hl Hr]. unfold symmetric, transpose.
  assert (Hc : ncols M = n).
  { unfold ncols. destruct M as [|r0 M']; simpl in *; [exact Hl|].
    now inversion Hr. }
  rewrite Hc.
  apply (nth_ext _ _ [] []).
  - now rewrite length_map, length_seq.
  - intros i Hi. rewrite length_map, length_seq in Hi.
    rewrite (nth_indep _ [] (column M 0))
      by (now rewrite length_map, length_seq).
    rewrite (map_nth (column M)), seq_nth by exact Hi. simpl.
    apply (nth_ext _ _ 0 0).
    + unfold column. rewrite length_map, (square_row SM Hi). exact Hl.
    + intros j Hj. unfold column in *. rewrite length_map, Hl in Hj.
      rewrite (nth_indep _ 0 ((fun row => nth i row 0) []))
        by (rewrite length_map; lia).
      rewrite (map_nth (fun row => nth i row 0)).
      apply (HM j i Hj Hi).
Qed.

Lemma sandwich_loop_mirror (k : nat) (gradi : matrix) (clusters : list Z) :
  exists n, mirror n (DiscreteChoice.sandwich_loop k gradi clusters).
Proof.
  unfold DiscreteChoice.sandwich_loop.
  generalize (np_unique clusters) as cl.
  assert (H0 : exists n, mirror n (np_zeros2 k k))
    by (exists k; apply mirror_zeros).
  revert H0. generalize (np_zeros2 k k) as S0.
  intros S0 H0 cl. revert S0 H0.
  induction cl as [|c cl IH]; intros S0 [n Hn]; simpl.
  - now exists n.
  - apply IH. eexists. apply (mirror_madd Hn (mirror_outer _)).
Qed.

Lemma cluster_loop_mirror (k : nat) (dg : list (Z * list R)) (wids : list Z)
      (G0 G : matrix) :
  mirror k G0 ->
  Effort.cluster_loop k dg wids G0 = Ok G ->
  mirror k G.
Proof.
  revert G0. induction wids as [|w wids IH]; intros G0 Hn; simpl.
  - now intros [= <-].
  - unfold Effort.add_outer.
    set (g := map np_sum _).
    destruct (Nat.eqb_spec (length g) k) as [Hg|Hg].
    + simpl. apply IH.
      rewrite <- (Nat.min_id k). rewrite <- Hg at 2.
      apply (mirror_madd Hn (mirror_outer g)).
    + destruct g as [|a [|? ?]]; simpl; try discriminate.
      apply IH. change (fun e => e + a * a) with (fun e => e + (a * a)).
      now apply mirror_shift.
Qed.

End Symmetry.

(** C5.  Whenever [congradloglike] returns a matrix, for any parameter
    vector, any observations and any cluster identifiers, the matrix equals
    its transpose; so does the matrix [gradcontr] returns, whatever the
    gradient function. *)
Theorem gradient_outer_product_symmetric :
  (forall (v : list R) (rows : list DiscreteChoice.Choice) (G : matrix),
      DiscreteChoice.congradloglike v rows = Ok G -> symmetric G)
  /\ (forall (Phi : R -> R) (grad : (list R -> py xreal) -> list R -> list R)
             (dt : list Effort.Decision) (parameters : list R) (G : matrix),
         Effort.gradcontr Phi grad dt parameters = Ok G -> symmetric G).
Proof.
  split.
  - intros v rows G. unfold DiscreteChoice.congradloglike.
    destruct (DiscreteChoice.check_shape v); simpl; [|discriminate].
    destruct rows as [|o rows]; [discriminate|].
    destruct (py_mapM (DiscreteChoice.grad_obs v) (o :: rows)) as [gradi|e];
      simpl; [|discriminate].
    intros [= <-].
    destruct (sandwich_loop_mirror (ncols gradi) gradi
                (map DiscreteChoice.sid (o :: rows))) as [n Hn].
    exact (mirror_symmetric Hn).
  - intros Phi grad dt parameters G. unfold Effort.gradcontr. intros HG.
    exact (mirror_symmetric
             (cluster_loop_mirror _ _ (mirror_zeros (length parameters)) HG)).
Qed.

(** ** Cluster identifiers *)

Section Unique.

Lemma In_insert_unique (z x : Z) (l : list Z) :
  In x (insert_unique z l) <-> x = z \/ In x l.
Proof.
  induction l as [|y t IH]; simpl.
  - intuition.
  - destruct (z <? y)%Z eqn:Hlt; [simpl; intuition|].
    destruct (z =? y)%Z eqn:Heq.
    + apply Z.eqb_eq in Heq. subst y. simpl. intuition.
    + simpl. rewrite IH. intuition.
Qed.

Lemma In_np_unique (x : Z) (l : list Z) : In x (np_unique l) <-> In x l.
Proof.
  unfold np_unique. induction l as [|h t IH]; simpl; [reflexivity|].
  rewrite In_insert_unique, IH. intuition.
Qed.

Lemma insert_unique_sorted (z : Z) (l : list Z) :
  StronglySorted Z.lt l -> StronglySorted Z.lt (insert_unique z l).
Proof.
  induction 1 as [|y t Hs IH Hy]; simpl.
  - repeat constructor.
  - destruct (z <? y)%Z eqn:Hlt.
    + apply Z.ltb_lt in Hlt. constructor; [now constructor|].
      constructor; [exact Hlt|].
      revert Hy. apply Forall_impl. intros w Hw. lia.
    + destruct (z =? y)%Z eqn:Heq; [now constructor|].
      apply Z.ltb_ge in Hlt. apply Z.eqb_neq in Heq.
      constructor; [exact IH|].
      apply Forall_forall. intros w Hw.
      apply In_insert_unique in Hw. destruct Hw as [->|Hw]; [lia|].
      rewrite Forall_forall in Hy. auto.
Qed.

(** [np.unique] returns its values in increasing order. *)
Lemma np_unique_sorted (l : list Z) : StronglySorted Z.lt (np_unique l).
Proof.
  unfold np_unique. induction l as [|h t IH]; simpl.
  - constructor.
  - now apply insert_unique_sorted.
Qed.

Lemma sorted_NoDup (l : list Z) : StronglySorted Z.lt l -> NoDup l.
Proof.
  induction 1 as [|y t Hs IH Hy]; constructor; [|exact IH].
  intros Hin. rewrite Forall_forall in Hy. specialize (Hy y Hin). lia.
Qed.

(** The length of [np.unique] is the number of distinct identifiers. *)
Lemma np_unique_count (l : list Z) :
  length (np_unique l) = distinct_count l.
Proof.
  unfold distinct_count. apply Nat.le_antisymm.
  - apply NoDup_incl_length.
    + apply sorted_NoDup, np_unique_sorted.
    + intros x Hx. apply nodup_In. now apply In_np_unique.
  - apply NoDup_incl_length.
    + apply NoDup_nodup.
    + intros x Hx. apply In_np_unique. now apply nodup_In in Hx.
Qed.

End Unique.

(** ** The gradient functions return *)

Section Returns.

Lemma py_mapM_ok (A B : Type) (f : A -> py B) (l : list A) :
  (forall a, In a l -> exists b, f a = Ok b) ->
  exists bs, py_mapM f l = Ok bs.
Proof.
  induction l as [|a l IH]; intros H; simpl.
  - now exists [].
  - destruct (H a (or_introl eq_refl)) as [b ->].
    destruct IH as [bs ->]; [intros; apply H; now right|].
    simpl. now eexists.
Qed.

Lemma grad_obs_ok (v : list R) (o : DiscreteChoice.Choice) :
  (DiscreteChoice.choice_x o <= 1)%Z ->
  exists row, DiscreteChoice.grad_obs v o = Ok row.
Proof.
  intros Hy. unfold DiscreteChoice.grad_obs, DiscreteChoice.sign_pow.
  destruct (1 - DiscreteChoice.choice_x o <? 0)%Z eqn:E.
  - apply Z.ltb_lt in E. lia.
  - simpl. now eexists.
Qed.

(** [congradloglike] returns on a parameter vector of length five and a
    non-empty frame whose choices do not exceed 1. *)
Lemma congradloglike_returns (v : list R) (rows : list DiscreteChoice.Choice) :
  length v = 5%nat -> rows <> [] ->
  (forall o, In o rows -> (DiscreteChoice.choice_x o <= 1)%Z) ->
  exists G, DiscreteChoice.congradloglike v rows = Ok G.
Proof.
  intros Hlen Hne Hy. unfold DiscreteChoice.congradloglike.
  destruct v as [|a [|b [|g [|d [|ls [|? ?]]]]]]; try discriminate Hlen.
  simpl bind. destruct rows as [|o rows]; [contradiction|].
  destruct (@py_mapM_ok _ _ (DiscreteChoice.grad_obs [a; b; g; d; ls])
              (o :: rows)) as [gradi ->].
  - intros o' Ho'. apply grad_obs_ok. auto.
  - simpl. now eexists.
Qed.

Lemma map_fst_combine_eq (A B : Type) (l : list A) (l' : list B) :
  length l = length l' -> map fst (combine l l') = l.
Proof.
  revert l'. induction l as [|a l IH]; intros [|b l'] H; simpl in *;
    try discriminate; [reflexivity|].
  f_equal. apply IH. lia.
Qed.

Lemma zip_star_length (k : nat) (rows : matrix) :
  rows <> [] -> Forall (fun r => length r = k) rows ->
  length (Effort.zip_star rows) = k.
Proof.
  intros Hne Hall. destruct rows as [|r rs]; [contradiction|].
  apply Forall_cons_iff in Hall. destruct Hall as [Hr Hrs].
  unfold Effort.zip_star.
  assert (H0 : length (map (fun a : R => [a]) r) = k)
    by (now rewrite length_map).
  clear Hne Hr. revert H0. generalize (map (fun a : R => [a]) r) as acc.
  induction Hrs as [|r' rs' Hr' _ IH]; intros acc Hacc; simpl.
  - exact Hacc.
  - apply IH. rewrite length_map, length_combine, Hacc, Hr'. lia.
Qed.

Lemma cluster_loop_returns (k : nat) (dg : list (Z * list R)) (wids : list Z)
      (G0 : matrix) :
  Forall (fun r => length (snd r) = k) dg ->
  (forall w, In w wids -> In w (map fst dg)) ->
  exists G, Effort.cluster_loop k dg wids G0 = Ok G.
Proof.
  intros Hdg. revert G0.
  induction wids as [|w wids IH]; intros G0 Hin; simpl.
  - now eexists.
  - unfold Effort.add_outer.
    set (sel := filter (fun r => (fst r =? w)%Z) dg).
    assert (Hlen : length (map np_sum (Effort.zip_star (map snd sel))) = k).
    { rewrite length_map. apply zip_star_length.
      - pose proof (Hin w (or_introl eq_refl)) as Hw.
        apply in_map_iff in Hw. destruct Hw as [x [Hf Hx]].
        assert (Hs : In x sel).
        { apply filter_In. split; [exact Hx|]. rewrite Hf. apply Z.eqb_refl. }
        intros Hnil. apply (in_map snd) in Hs. rewrite Hnil in Hs.
        destruct Hs.
      - apply Forall_map, Forall_forall. intros r Hr.
        apply filter_In in Hr. destruct Hr as [Hr _].
        rewrite Forall_forall in Hdg. auto. }
    rewrite Hlen, Nat.eqb_refl. simpl.
    apply IH. intros w' Hw'. apply Hin. now right.
Qed.

(** [gradcontr] returns when the gradient has one entry per parameter. *)
Lemma gradcontr_returns (Phi : R -> R)
      (grad : (list R -> py xreal) -> list R -> list R)
      (dt : list Effort.Decision) (parameters : list R) :
  (forall f, length (grad f parameters) = length parameters) ->
  exists G, Effort.gradcontr Phi grad dt parameters = Ok G.
Proof.
  intros Hg. unfold Effort.gradcontr. apply cluster_loop_returns.
  - apply Forall_forall. intros [w gr] Hin. simpl.
    apply in_combine_r, in_map_iff in Hin. destruct Hin as [d [<- _]].
    apply Hg.
  - intros w Hw. apply -> In_np_unique in Hw.
    rewrite map_fst_combine_eq; [exact Hw|].
    now rewrite !length_map.
Qed.

End Returns.

Lemma gradient_outer_product_symmetric_witness :
  let o1 := DiscreteChoice.mkChoice 7 1 0 0 1 0 0 10 20 15 15 1 in
  let o2 := DiscreteChoice.mkChoice 8 0 1 1 0 1 0 30 10 20 20 0 in
  (exists G, DiscreteChoice.congradloglike [0; 0; 0; 0; 0] [o1; o2] = Ok G
             /\ symmetric G)
  /\ (exists G,
        Effort.gradcontr (fun _ => 1 / 2) (fun _ p => p)
          (Effort.prepare [Effort.mkRaw 1 2 (1 / 10) 0 1 10 10 0])
          [1; 1; 1; 2; 500; 7; 40] = Ok G
        /\ symmetric G).
Proof.
  intros o1 o2. split.
  - destruct (@congradloglike_returns [0; 0; 0; 0; 0] [o1; o2]) as [G HG].
    + reflexivity.
    + discriminate.
    + intros o [<-|[<-|[]]]; simpl; lia.
    + exists G. split; [exact HG|].
      exact (proj1 gradient_outer_product_symmetric _ _ _ HG).
  - destruct (@gradcontr_returns (fun _ => 1 / 2) (fun _ p => p)
                (Effort.prepare [Effort.mkRaw 1 2 (1 / 10) 0 1 10 10 0])
                [1; 1; 1; 2; 500; 7; 40]) as [G HG].
    + reflexivity.
    + exists G. split; [exact HG|].
      exact (proj2 gradient_outer_product_symmetric _ _ _ _ _ HG).
Defined.

(** ** The degrees-of-freedom adjustment *)

Section Adjustment.

Lemma IZR_of_nat_pred (n : nat) : IZR (Z.of_nat n - 1) = INR n - 1.
Proof. now rewrite minus_IZR, <- INR_IZR_INZ. Qed.

Lemma IZR_of_nat_sub (n k : nat) :
  IZR (Z.of_nat n - Z.of_nat k) = INR n - INR k.
Proof. now rewrite minus_IZR, <- !INR_IZR_INZ. Qed.

(** Where both divisors are non-zero the two notebooks compute the same
    number, the adjustment of the specification. *)
Lemma adj_expr_choice (N K J : nat) :
  N <> K -> J <> 1%nat ->
  DiscreteChoice.adj_choice (Z.of_nat N) (Z.of_nat K) (Z.of_nat J)
  = Ok (Adj N K J).
Proof.
  intros HNK HJ. unfold DiscreteChoice.adj_choice, py_div.
  destruct (Z.eqb_spec (Z.of_nat N - Z.of_nat K) 0) as [E|_]; [lia|].
  destruct (Z.eqb_spec (Z.of_nat J - 1) 0) as [E|_]; [lia|].
  simpl. unfold Adj.
  now rewrite IZR_of_nat_pred, IZR_of_nat_sub, IZR_of_nat_pred,
    <- INR_IZR_INZ.
Qed.

Lemma adj_expr_effort (N K J : nat) :
  N <> K -> J <> 1%nat ->
  Effort.adj_effort (Z.of_nat N) (Z.of_nat K) (Z.of_nat J) = Ok (Adj N K J).
Proof.
  intros HNK HJ. unfold Effort.adj_effort, py_div, py_fdiv.
  destruct (Z.eqb_spec (Z.of_nat N - Z.of_nat K) 0) as [E|_]; [lia|].
  simpl.
  destruct (Z.eqb_spec (Z.of_nat J - 1) 0) as [E|_]; [lia|].
  unfold Adj.
  rewrite IZR_of_nat_pred, IZR_of_nat_sub, IZR_of_nat_pred, <- INR_IZR_INZ.
  f_equal. unfold Rdiv. ring.
Qed.

(** With one cluster the division [j/(j-1)] is a division by zero, in both
    notebooks and whatever the other two lengths. *)
Lemma adj_expr_single_cluster (n k : Z) :
  DiscreteChoice.adj_choice n k 1 = Raise ZeroDivisionError
  /\ Effort.adj_effort n k 1 = Raise ZeroDivisionError.
Proof.
  unfold DiscreteChoice.adj_choice, Effort.adj_effort, py_div, py_fdiv.
  destruct (n - k =? 0)%Z; simpl; split; reflexivity.
Qed.

End Adjustment.

Section AdjustmentLimit.

(** [(n-1)/(n-k)] tends to 1 as [n] grows. *)
Lemma ratio_tends_to_1 (k : Z) (eps : R) :
  0 < eps ->
  exists n0 : Z, forall n : Z, (n0 <= n)%Z ->
    (n - k)%Z <> 0%Z /\ Rabs (IZR (n - 1) / IZR (n - k) - 1) < eps.
Proof.
  intros Heps.
  set (b := Rabs (IZR (k - 1)) / eps).
  exists (Z.max (k + 1) (k + up b + 1)). intros n Hn.
  assert (Hk : (k + 1 <= n)%Z) by lia.
  assert (Hu : (k + up b + 1 <= n)%Z) by lia.
  split; [lia|].
  assert (Hd : 0 < IZR (n - k)) by (apply IZR_lt; lia).
  assert (Hb : b < IZR (n - k)).
  { destruct (archimed b) as [Hup _].
    apply Rlt_le_trans with (IZR (up b)); [lra|]. apply IZR_le. lia. }
  replace (IZR (n - 1) / IZR (n - k) - 1) with (IZR (k - 1) / IZR (n - k)).
  - unfold Rdiv. rewrite Rabs_mult, (Rabs_pos_eq (/ IZR (n - k))).
    + apply (Rmult_lt_reg_r (IZR (n - k))); [exact Hd|].
      rewrite Rmult_assoc, Rinv_l, Rmult_1_r by lra.
      unfold b in Hb. apply (Rmult_lt_compat_r eps) in Hb; [|exact Heps].
      unfold Rdiv in Hb. rewrite Rmult_assoc, Rinv_l, Rmult_1_r in Hb by lra.
      lra.
    + left. now apply Rinv_0_lt_compat.
  - rewrite !minus_IZR. rewrite minus_IZR in Hd. field. lra.
Qed.

Lemma adj_expr_tends (k j : Z) :
  (2 <= j)%Z ->
  tends_to (fun n => DiscreteChoice.adj_choice n k j) (IZR j / (IZR j - 1))
  /\ tends_to (fun n => Effort.adj_effort n k j) (IZR j / (IZR j - 1)).
Proof.
  intros Hj.
  assert (Hj1 : 1 <= IZR j - 1).
  { apply IZR_le in Hj. lra. }
  assert (Hc : 0 < IZR j / (IZR j - 1)).
  { apply Rdiv_lt_0_compat; lra. }
  assert (Hz : (j - 1 =? 0)%Z = false) by (apply Z.eqb_neq; lia).
  assert (Hmain : forall eps, 0 < eps ->
            exists n0 : Z, forall n : Z, (n0 <= n)%Z ->
              (n - k)%Z <> 0%Z
              /\ Rabs (IZR (n - 1) / IZR (n - k) * (IZR j / (IZR j - 1))
                       - IZR j / (IZR j - 1)) < eps).
  { intros eps Heps.
    destruct (@ratio_tends_to_1 k (eps / (IZR j / (IZR j - 1))))
      as [n0 Hn0]; [apply Rdiv_lt_0_compat; lra|].
    exists n0. intros n Hn. destruct (Hn0 n Hn) as [Hnk Hr].
    split; [exact Hnk|].
    replace (IZR (n - 1) / IZR (n - k) * (IZR j / (IZR j - 1))
             - IZR j / (IZR j - 1))
      with ((IZR (n - 1) / IZR (n - k) - 1) * (IZR j / (IZR j - 1)))
      by ring.
    rewrite Rabs_mult, (Rabs_pos_eq (IZR j / (IZR j - 1))) by lra.
    apply (Rmult_lt_compat_r (IZR j / (IZR j - 1))) in Hr; [|exact Hc].
    unfold Rdiv at 3 in Hr.
    rewrite Rmult_assoc, Rinv_l, Rmult_1_r in Hr by lra.
    exact Hr. }
  split; intros eps Heps; destruct (Hmain eps Heps) as [n0 Hn0];
    exists n0; intros n Hn; destruct (Hn0 n Hn) as [Hnk Hr].
  - unfold DiscreteChoice.adj_choice, py_div.
    apply Z.eqb_neq in Hnk. rewrite Hnk, Hz. simpl.
    eexists. split; [reflexivity|]. rewrite (minus_IZR j 1). exact Hr.
  - unfold Effort.adj_effort, py_div, py_fdiv.
    apply Z.eqb_neq in Hnk. rewrite Hnk. simpl. rewrite Hz.
    eexists. split; [reflexivity|]. rewrite (minus_IZR j 1).
    replace (IZR (n - 1) / IZR (n - k) * IZR j / (IZR j - 1))
      with (IZR (n - 1) / IZR (n - k) * (IZR j / (IZR j - 1)))
      by (unfold Rdiv; ring).
    exact Hr.
Qed.

End AdjustmentLimit.

(** C7, as the specification states it, fails: with two clusters and five
    parameters the adjustment stays at or above 2 for every observation
    count above five, so it does not tend to 1. *)
Lemma adj_does_not_tend_to_1 :
  ~ tends_to (fun n => DiscreteChoice.adj_choice n 5 2) 1.
Proof.
  intros H. destruct (H (1 / 2)) as [n0 Hn0]; [lra|].
  destruct (Hn0 (Z.max n0 6)) as [a [Ha Hlt]]; [lia|].
  set (n := Z.max n0 6) in *.
  assert (Hn : (6 <= n)%Z) by (unfold n; lia).
  unfold DiscreteChoice.adj_choice, py_div in Ha.
  destruct (Z.eqb_spec (n - 5) 0) as [E|_]; [lia|].
  simpl in Ha. injection Ha as <-.
  assert (Hd : 0 < IZR (n - 5)) by (apply IZR_lt; lia).
  assert (Hnum : IZR (n - 5) <= IZR (n - 1)) by (apply IZR_le; lia).
  assert (Hr : 1 <= IZR (n - 1) / IZR (n - 5)).
  { apply (Rmult_le_reg_r (IZR (n - 5))); [exact Hd|].
    unfold Rdiv. rewrite Rmult_assoc, Rinv_l by lra. lra. }
  replace (2 / 1) with 2 in Hlt by field.
  rewrite Rabs_pos_eq in Hlt; lra.
Qed.

(** C7, amended.  With the cluster count [J >= 2] held fixed, the
    adjustment [(N-1)/(N-K) * J/(J-1)] of either notebook tends to
    [J/(J-1)] as the observation count grows.  With [J = 1] its evaluation
    raises a division by zero; neither notebook tests the cluster count
    first, so on a frame with a single cluster the variance computation
    stops with that error once the Hessian has been inverted (and, in the
    effort notebook, the gradient contributions computed). *)
Theorem adj_limit_and_single_cluster :
  forall (k j : Z), (2 <= j)%Z ->
    tends_to (fun n => DiscreteChoice.adj_choice n k j) (IZR j / (IZR j - 1))
    /\ tends_to (fun n => Effort.adj_effort n k j) (IZR j / (IZR j - 1))
    /\ (forall n : Z,
          DiscreteChoice.adj_choice n k 1 = Raise ZeroDivisionError
          /\ Effort.adj_effort n k 1 = Raise ZeroDivisionError)
    /\ (forall nd_Hessian linalg_inv res rows Hinv,
          distinct_count (map DiscreteChoice.sid rows) = 1%nat ->
          linalg_inv (DiscreteChoice.hess_fun nd_Hessian res rows) = Ok Hinv ->
          DiscreteChoice.varcov nd_Hessian linalg_inv res rows
          = Raise ZeroDivisionError)
    /\ (forall Phi grad hessian linalg_inv res dt Hinv G,
          distinct_count (map Effort.wid dt) = 1%nat ->
          linalg_inv (hessian (fun p => Effort.negloglike Phi p dt) res)
          = Ok Hinv ->
          Effort.gradcontr Phi grad dt res = Ok G ->
          Effort.varcov_estimates Phi grad hessian linalg_inv res dt
          = Raise ZeroDivisionError).
Proof.
  intros k j Hj.
  destruct (adj_expr_tends k Hj) as [H1 H2].
  split; [exact H1|]. split; [exact H2|].
  split; [intros n; apply adj_expr_single_cluster|]. split.
  - intros nd_Hessian linalg_inv res rows Hinv HJ Hi.
    unfold DiscreteChoice.varcov. rewrite Hi. simpl.
    unfold DiscreteChoice.adj. rewrite np_unique_count, HJ.
    now rewrite (proj1 (adj_expr_single_cluster _ _)).
  - intros Phi grad hessian linalg_inv res dt Hinv G HJ Hi HG.
    unfold Effort.varcov_estimates. rewrite Hi. simpl. rewrite HG. simpl.
    unfold Effort.adj. rewrite np_unique_count, HJ.
    now rewrite (proj2 (adj_expr_single_cluster _ _)).
Qed.

Lemma adj_limit_and_single_cluster_witness :
  tends_to (fun n => DiscreteChoice.adj_choice n 5 2) (IZR 2 / (IZR 2 - 1))
  /\ DiscreteChoice.adj_choice 18720 5 1 = Raise ZeroDivisionError.
Proof.
  destruct (@adj_limit_and_single_cluster 5 2 ltac:(lia))
    as (H1 & _ & H3 & _).
  split; [exact H1|]. exact (proj1 (H3 18720%Z)).
Defined.

(** ** Shapes of the gradient matrices *)

Section Shapes.

Lemma py_mapM_Forall2 (A B : Type) (f : A -> py B) (l : list A) (bs : list B) :
  py_mapM f l = Ok bs -> Forall2 (fun a b => f a = Ok b) l bs.
Proof.
  revert bs. induction l as [|a l IH]; intros bs; simpl.
  - intros [= <-]. constructor.
  - destruct (f a) as [b|e] eqn:Ef; simpl; [|discriminate].
    destruct (py_mapM f l) as [bs'|e]; simpl; [|discriminate].
    intros [= <-]. constructor; auto.
Qed.

Lemma grad_obs_length (v : list R) (o : DiscreteChoice.Choice) (row : list R) :
  DiscreteChoice.grad_obs v o = Ok row -> length row = 5%nat.
Proof.
  unfold DiscreteChoice.grad_obs.
  destruct (DiscreteChoice.sign_pow _) as [s|e]; simpl; [|discriminate].
  intros [= <-]. reflexivity.
Qed.

Lemma gradi_shape (v : list R) (rows : list DiscreteChoice.Choice)
      (gradi : matrix) :
  py_mapM (DiscreteChoice.grad_obs v) rows = Ok gradi ->
  length gradi = length rows /\ Forall (fun r => length r = 5%nat) gradi.
Proof.
  intros H. apply py_mapM_Forall2 in H.
  induction H as [|o row rows gradi Ho _ [IHl IHf]]; simpl.
  - split; [reflexivity|constructor].
  - split; [now rewrite IHl|].
    constructor; [exact (grad_obs_length _ _ Ho)|exact IHf].
Qed.

Lemma sum_axis0_length (k : nat) (M : matrix) :
  Forall (fun r => length r = k) M -> length (sum_axis0 k M) = k.
Proof.
  unfold sum_axis0.
  assert (H0 : length (np_zeros k) = k) by apply repeat_length.
  revert H0. generalize (np_zeros k) as acc.
  intros acc Hacc HM. revert acc Hacc.
  induction HM as [|r M Hr _ IH]; intros acc Hacc; simpl.
  - exact Hacc.
  - apply IH. rewrite vadd_length, Hacc, Hr. lia.
Qed.

Lemma take_rows_shape (k : nat) (gradi : matrix) (clusters : list Z) (c : Z) :
  Forall (fun r => length r = k) gradi ->
  length clusters = length gradi ->
  Forall (fun r => length r = k)
         (DiscreteChoice.take_rows gradi (DiscreteChoice.select clusters c)).
Proof.
  intros Hg Hl. unfold DiscreteChoice.take_rows, DiscreteChoice.select.
  apply Forall_map, Forall_forall. intros m Hm.
  apply filter_In in Hm. destruct Hm as [Hm _]. apply in_seq in Hm.
  rewrite Forall_forall in Hg. apply Hg, nth_In. lia.
Qed.

Lemma sandwich_loop_square (k : nat) (gradi : matrix) (clusters : list Z) :
  Forall (fun r => length r = k) gradi ->
  length clusters = length gradi ->
  mirror k (DiscreteChoice.sandwich_loop k gradi clusters).
Proof.
  intros Hg Hl. unfold DiscreteChoice.sandwich_loop.
  generalize (np_unique clusters) as cl.
  pose proof (mirror_zeros k) as H0.
  revert H0. generalize (np_zeros2 k k) as S0.
  intros S0 H0 cl. revert S0 H0.
  induction cl as [|c cl IH]; intros S0 Hn; simpl; [exact Hn|].
  apply IH.
  set (gradsel := sum_axis0 k _).
  assert (Hs : length gradsel = k)
    by (apply sum_axis0_length, take_rows_shape; assumption).
  rewrite <- (Nat.min_id k). rewrite <- Hs at 2.
  apply (mirror_madd Hn (mirror_outer gradsel)).
Qed.

(** [congradloglike] returns a symmetric five by five matrix. *)
Lemma congradloglike_square (v : list R) (rows : list DiscreteChoice.Choice)
      (G : matrix) :
  DiscreteChoice.congradloglike v rows = Ok G -> mirror 5 G.
Proof.
  unfold DiscreteChoice.congradloglike.
  destruct (DiscreteChoice.check_shape v); simpl; [|discriminate].
  destruct rows as [|o rows]; [discriminate|].
  destruct (py_mapM (DiscreteChoice.grad_obs v) (o :: rows)) as [gradi|e] eqn:E;
    simpl; [|discriminate].
  intros [= <-].
  destruct (gradi_shape _ _ E) as [Hl Hf].
  assert (Hk : ncols gradi = 5%nat).
  { destruct gradi as [|r0 gradi']; [discriminate Hl|].
    unfold ncols. simpl. now inversion Hf. }
  rewrite Hk. apply sandwich_loop_square; [exact Hf|].
  simpl in *. rewrite length_map. lia.
Qed.


End Shapes.

(** ** Matrix products, entry by entry *)

Section Products.

Lemma np_sum_fold_right (l : list R) : np_sum l = fold_right Rplus 0 l.
Proof.
  induction l as [|h t IH]; [reflexivity|].
  rewrite np_sum_cons, IH. reflexivity.
Qed.

Lemma sum_upto_S (n : nat) (f : nat -> R) :
  sum_upto (S n) f = f 0%nat + sum_upto n (fun p => f (S p)).
Proof.
  unfold sum_upto. simpl. now rewrite <- seq_shift, map_map.
Qed.

Lemma sum_upto_ext (n : nat) (f g : nat -> R) :
  (forall p, (p < n)%nat -> f p = g p) -> sum_upto n f = sum_upto n g.
Proof.
  intros H. unfold sum_upto. f_equal. apply map_ext_in.
  intros p Hp. apply in_seq in Hp. apply H. lia.
Qed.

Lemma dot_sum (k : nat) (u w : list R) :
  length u = k -> length w = k ->
  dot u w = sum_upto k (fun p => nth p u 0 * nth p w 0).
Proof.
  revert u w. induction k as [|k IH]; intros [|x u] [|y w] Hu Hw;
    try discriminate.
  - reflexivity.
  - unfold dot. simpl combine. simpl map. rewrite np_sum_cons, sum_upto_S.
    simpl. f_equal. apply IH; simpl in *; lia.
Qed.

Lemma square_ncols (n : nat) (M : matrix) : is_square n M -> ncols M = n.
Proof.
  intros [Hl Hr]. unfold ncols.
  destruct M as [|r0 M']; simpl in *; [exact Hl|]. now inversion Hr.
Qed.

Lemma nth_column (M : matrix) (j q : nat) :
  nth q (column M j) 0 = entry M q j.
Proof.
  unfold column, entry.
  destruct (Nat.lt_ge_cases q (length M)) as [Hq|Hq].
  - rewrite (nth_indep _ 0 ((fun row : list R => nth j row 0) []))
      by (now rewrite length_map).
    apply (map_nth (fun row : list R => nth j row 0)).
  - rewrite (nth_overflow (map _ M)) by (now rewrite length_map).
    rewrite (nth_overflow M [] Hq). now destruct j.
Qed.

Lemma nth_matmul_row (A B : matrix) (i : nat) :
  (i < length A)%nat ->
  nth i (matmul A B) []
  = map (fun j => dot (nth i A []) (column B j)) (seq 0 (ncols B)).
Proof.
  intros Hi. unfold matmul.
  rewrite (nth_indep _ []
             ((fun row => map (fun j => dot row (column B j))
                              (seq 0 (ncols B))) []))
    by (now rewrite length_map).
  apply (map_nth (fun row => map (fun j => dot row (column B j))
                                  (seq 0 (ncols B)))).
Qed.

Lemma entry_matmul (k : nat) (A B : matrix) (i j : nat) :
  is_square k A -> is_square k B -> (i < k)%nat -> (j < k)%nat ->
  entry (matmul A B) i j = sum_upto k (fun p => entry A i p * entry B p j).
Proof.
  intros SA SB Hi Hj. unfold entry at 1.
  rewrite nth_matmul_row by (destruct SA as [-> _]; exact Hi).
  rewrite (square_ncols SB).
  rewrite (nth_indep _ 0 ((fun j => dot (nth i A []) (column B j)) 0%nat))
    by (now rewrite length_map, length_seq).
  rewrite (map_nth (fun j => dot (nth i A []) (column B j))), seq_nth
    by exact Hj.
  simpl. rewrite (@dot_sum k).
  - apply sum_upto_ext. intros p Hp. now rewrite nth_column.
  - now apply square_row.
  - unfold column. rewrite length_map. now destruct SB.
Qed.

Lemma matmul_square (k : nat) (A B : matrix) :
  is_square k A -> is_square k B -> is_square k (matmul A B).
Proof.
  intros SA SB. split.
  - unfold matmul. rewrite length_map. now destruct SA.
  - unfold matmul. apply Forall_map, Forall_forall. intros row _.
    now rewrite length_map, length_seq, (square_ncols SB).
Qed.

Lemma entry_mscale (c : R) (M : matrix) (i j : nat) :
  entry (mscale c M) i j = c * entry M i j.
Proof.
  unfold entry, mscale.
  change (@nil R) with (map (Rmult c) []) at 1.
  rewrite (map_nth (map (Rmult c))).
  destruct (Nat.lt_ge_cases j (length (nth i M []))) as [Hj|Hj].
  - rewrite (nth_indep _ 0 (c * 0)) by (now rewrite length_map).
    apply (map_nth (Rmult c)).
  - rewrite !nth_overflow; rewrite ?length_map; try lia. ring.
Qed.

(** The matrix the notebooks build has the entries of [Adj Hinv G Hinv]. *)
Lemma sandwich_entries (a : R) (k : nat) (Hinv G : matrix) :
  is_square k Hinv -> is_square k G ->
  is_sandwich a k Hinv G (mscale a (matmul (matmul Hinv G) Hinv)).
Proof.
  intros SH SG. split.
  - unfold mscale, matmul. rewrite !length_map. now destruct SH.
  - intros i j Hi Hj. unfold sandwich_entry.
    rewrite entry_mscale. f_equal.
    rewrite (entry_matmul (matmul_square SH SG) SH Hi Hj).
    apply sum_upto_ext. intros q0 Hq.
    now rewrite (entry_matmul SH SG Hi Hq).
Qed.

Lemma sqrt_diag_entries (k : nat) (V : matrix) :
  length V = k -> sqrt_diagonal k V (map sqrt (np_diag V)).
Proof.
  intros HV. unfold np_diag. split.
  - now rewrite !length_map, length_seq.
  - intros i Hi. rewrite map_map.
    rewrite (nth_indep _ 0 ((fun i => sqrt (entry V i i)) 0%nat))
      by (rewrite length_map, length_seq; lia).
    rewrite (map_nth (fun i => sqrt (entry V i i))), seq_nth by lia.
    reflexivity.
Qed.

End Products.

(** ** The parameter count [congradloglike] accepts *)

Lemma congradloglike_params (v : list R) (rows : list DiscreteChoice.Choice)
      (G : matrix) :
  DiscreteChoice.congradloglike v rows = Ok G -> length v = 5%nat.
Proof.
  unfold DiscreteChoice.congradloglike, DiscreteChoice.check_shape.
  destruct v as [|a v']; [discriminate|].
  destruct (Nat.eqb_spec (length (a :: v')) 5) as [E|_]; [auto|discriminate].
Qed.

(** ** Hypothesis tests *)

Section Tests.

Lemma nth_map_in (A B : Type) (f : A -> B) (l : list A) (i : nat) (d : A)
      (d' : B) :
  (i < length l)%nat -> nth i (map f l) d' = f (nth i l d).
Proof.
  intros Hi. rewrite (nth_indep _ d' (f d)) by (now rewrite length_map).
  apply map_nth.
Qed.

Lemma np_map2_same_length (f : R -> R -> R) (u w : list R) :
  length u = length w ->
  np_map2 f u w = Ok (map (fun p => f (fst p) (snd p)) (combine u w)).
Proof.
  intros H. unfold np_map2. now rewrite H, Nat.eqb_refl.
Qed.

Lemma nth_zip (f : R -> R -> R) (u w : list R) (i : nat) :
  length u = length w -> (i < length u)%nat ->
  nth i (map (fun p => f (fst p) (snd p)) (combine u w)) 0
  = f (nth i u 0) (nth i w 0).
Proof.
  intros H Hi.
  rewrite (@nth_map_in _ _ (fun p => f (fst p) (snd p)) _ _ (0, 0))
    by (rewrite length_combine; lia).
  rewrite nth_combine_min by lia. reflexivity.
Qed.

Lemma zip_length (f : R -> R -> R) (u w : list R) :
  length u = length w ->
  length (map (fun p => f (fst p) (snd p)) (combine u w)) = length u.
Proof.
  intros H. rewrite length_map, length_combine. lia.
Qed.

Lemma pvalue_abs_two_sided (Phi : R -> R) (z : R) :
  pvalue_abs Phi z = p_two_sided Phi z.
Proof.
  unfold pvalue_abs, p_two_sided. now rewrite norm_cdf_std.
Qed.

End Tests.

(** C8.  Every test of the notebooks takes [z = (estimate - reference)/se]
    and reports [p = 2 (1 - Phi(|z|))]: against 0 for the five
    discrete-choice parameters and for the projection-bias parameter,
    against 1 for the first three effort parameters.  The comparison of the
    two sessions takes [|theta1 - theta2| / sqrt(Var1 + Var2)] with the
    variances the squares of the two standard errors, and the same
    p-value. *)
Theorem z_tests :
  forall Phi : R -> R,
    (forall (results se : list R) (i : nat),
        length results = length se -> (i < length se)%nat ->
        exists zs,
          DiscreteChoice.zvalues results se = Ok zs
          /\ nth i zs 0 = z_stat (nth i results 0) 0 (nth i se 0)
          /\ nth i (DiscreteChoice.pvalues Phi zs) 0
             = p_two_sided Phi (nth i zs 0))
    /\ (forall (res se : list R) (i : nat),
          (3 <= length res)%nat -> (3 <= length se)%nat -> (i < 3)%nat ->
          exists zs,
            Effort.zvalues_1 res se = Ok zs
            /\ nth i zs 0 = z_stat (nth i res 0) 1 (nth i se 0)
            /\ nth i (Effort.pvalues_1 Phi zs) 0
               = p_two_sided Phi (nth i zs 0))
    /\ (forall (res se : list R),
          (6 <= length res)%nat -> (6 <= length se)%nat ->
          exists z,
            Effort.zvalue_a res se = Ok z
            /\ z = z_stat (nth 5 res 0) 0 (nth 5 se 0)
            /\ Effort.pvalue_a Phi z = p_two_sided Phi z)
    /\ (forall (results_s1 se_s1 results_s2 se_s2 : list R) (i : nat),
          length results_s2 = length results_s1 ->
          length se_s1 = length results_s1 ->
          length se_s2 = length results_s1 ->
          (i < length results_s1)%nat ->
          exists zs,
            DiscreteChoice.zvalues_s1s2 results_s1 se_s1 results_s2 se_s2
            = Ok zs
            /\ nth i zs 0
               = diff_stat (nth i results_s1 0)
                           (nth i se_s1 0 * nth i se_s1 0)
                           (nth i results_s2 0)
                           (nth i se_s2 0 * nth i se_s2 0)
            /\ nth i (DiscreteChoice.pvalues_s1s2 Phi zs) 0
               = p_two_sided Phi (nth i zs 0)).
Proof.
  intros Phi. split; [|split; [|split]].
  - intros results se i Hl Hi. unfold DiscreteChoice.zvalues.
    rewrite (np_map2_same_length _ _ _ Hl). eexists. split; [reflexivity|].
    assert (Hz : nth i (map (fun p => Rdiv (fst p) (snd p))
                            (combine results se)) 0
                 = z_stat (nth i results 0) 0 (nth i se 0)).
    { rewrite nth_zip by lia. unfold z_stat. now rewrite Rminus_0_r. }
    split; [exact Hz|].
    unfold DiscreteChoice.pvalues.
    rewrite (@nth_map_in _ _ (pvalue_abs Phi) _ _ 0)
      by (rewrite zip_length; lia).
    apply pvalue_abs_two_sided.
  - intros res se i Hr Hs Hi. unfold Effort.zvalues_1.
    assert (Hl : length (map (fun r => r - 1) (firstn 3 res))
                 = length (firstn 3 se)).
    { rewrite length_map, !length_firstn. lia. }
    assert (Hl3 : length (firstn 3 se) = 3%nat)
      by (rewrite length_firstn; lia).
    rewrite (np_map2_same_length _ _ _ Hl). eexists. split; [reflexivity|].
    assert (Hz : nth i (map (fun p => Rdiv (fst p) (snd p))
                            (combine (map (fun r => r - 1) (firstn 3 res))
                                     (firstn 3 se))) 0
                 = z_stat (nth i res 0) 1 (nth i se 0)).
    { rewrite nth_zip by lia.
      rewrite (@nth_map_in _ _ (fun r => r - 1) _ _ 0)
        by (rewrite length_firstn; lia).
      rewrite !nth_firstn.
      destruct (Nat.ltb_spec i 3) as [_|Hge]; [reflexivity|lia]. }
    split; [exact Hz|].
    unfold Effort.pvalues_1.
    rewrite (@nth_map_in _ _ (pvalue_abs Phi) _ _ 0)
      by (rewrite zip_length; lia).
    apply pvalue_abs_two_sided.
  - intros res se Hr Hs. unfold Effort.zvalue_a, py_index.
    destruct (nth_error res 5) as [r|] eqn:Er;
      [|apply nth_error_None in Er; lia].
    destruct (nth_error se 5) as [s|] eqn:Es;
      [|apply nth_error_None in Es; lia].
    simpl. eexists. split; [reflexivity|].
    rewrite (nth_error_nth _ _ 0 Er), (nth_error_nth _ _ 0 Es).
    split; [unfold z_stat; now rewrite Rminus_0_r|].
    apply pvalue_abs_two_sided.
  - intros r1 se1 r2 se2 i H2 Hs1 Hs2 Hi.
    unfold DiscreteChoice.zvalues_s1s2, DiscreteChoice.var_of.
    rewrite (np_map2_same_length Rminus r1 r2) by lia. simpl.
    rewrite (np_map2_same_length Rplus) by (rewrite !length_map; lia).
    simpl.
    rewrite np_map2_same_length
      by (rewrite !length_map, !length_combine, !length_map; lia).
    match goal with
    | |- exists zs, Ok ?T = Ok zs /\ _ => set (zs0 := T)
    end.
    exists zs0. split; [reflexivity|].
    assert (Hlen : length zs0 = length r1).
    { unfold zs0.
      rewrite !length_map, !length_combine, ?length_map, ?length_combine,
        ?length_map.
      lia. }
    assert (Hz : nth i zs0 0
                 = diff_stat (nth i r1 0) (nth i se1 0 * nth i se1 0)
                             (nth i r2 0) (nth i se2 0 * nth i se2 0)).
    { unfold zs0.
      rewrite (nth_zip Rdiv)
        by (rewrite !length_map, !length_combine, ?length_map; lia).
      rewrite (@nth_map_in _ _ Rabs _ _ 0)
        by (rewrite length_map, length_combine; lia).
      rewrite (@nth_map_in _ _ sqrt _ _ 0)
        by (rewrite length_map, length_combine, !length_map; lia).
      rewrite (nth_zip Rminus) by lia.
      rewrite (nth_zip Rplus) by (rewrite !length_map; lia).
      rewrite !(@nth_map_in _ _ (fun s => pow_int s 2) _ _ 0) by lia.
      rewrite !pow_int_2. reflexivity. }
    split; [exact Hz|].
    unfold DiscreteChoice.pvalues_s1s2.
    rewrite (@nth_map_in _ _ (fun z => 2 * (1 - norm_cdf Phi z 0 1)) _ _ 0)
      by (rewrite Hlen; lia).
    rewrite Hz, norm_cdf_std. unfold p_two_sided. do 3 f_equal.
    symmetry. apply Rabs_pos_eq. unfold diff_stat.
    apply Rmult_le_pos; [apply Rabs_pos|].
    destruct (Rle_lt_dec (sqrt (nth i se1 0 * nth i se1 0
                                + nth i se2 0 * nth i se2 0)) 0) as [Hle|Hlt].
    + pose proof (sqrt_pos (nth i se1 0 * nth i se1 0
                            + nth i se2 0 * nth i se2 0)) as Hp.
      replace (sqrt (nth i se1 0 * nth i se1 0 + nth i se2 0 * nth i se2 0))
        with 0 by lra.
      rewrite Rinv_0. lra.
    + left. now apply Rinv_0_lt_compat.
Qed.

Lemma z_tests_witness :
  exists zs,
    DiscreteChoice.zvalues [1; 2] [1 / 2; 1 / 4] = Ok zs
    /\ nth 0 zs 0 = z_stat 1 0 (1 / 2)
    /\ nth 0 (DiscreteChoice.pvalues (fun _ => 1 / 2) zs) 0
       = p_two_sided (fun _ => 1 / 2) (nth 0 zs 0).
Proof.
  exact (proj1 (z_tests (fun _ => 1 / 2)) [1; 2] [1 / 2; 1 / 4] 0%nat
               eq_refl ltac:(simpl; lia)).
Defined.

(** ** The optimiser's convergence flag *)

(** C9, as the specification states it, fails: the estimates and the
    log likelihood the discrete-choice notebook takes from an optimiser
    result flagged as not converged are those it takes from the same
    result flagged as converged. *)
Lemma nonconvergence_not_surfaced :
  ~ surfaces_nonconvergence
      (fun sol => (DiscreteChoice.results_of (DiscreteChoice.res_of sol),
                   DiscreteChoice.log_likelihood sol)).
Proof.
  intros H.
  apply (H (mkResult [0; 0; 0; 0; 0] 1 false 1500) eq_refl).
  reflexivity.
Qed.

(** C9, amended.  Both notebooks take the optimiser's point [sol.x] as the
    estimate and [-sol.fun] as the log likelihood whatever the convergence
    flag says: two optimiser results with the same point and the same
    objective value give the same table, whether or not either is flagged
    as converged. *)
Theorem table_ignores_convergence_flag :
  forall (sol sol' : OptimizeResult),
    x sol = x sol' -> fun_ sol = fun_ sol' ->
    DiscreteChoice.res_of sol = x sol
    /\ (forall nd_Hessian linalg_inv Phi rows,
          DiscreteChoice.session_table nd_Hessian linalg_inv Phi sol rows
          = DiscreteChoice.session_table nd_Hessian linalg_inv Phi sol' rows)
    /\ (forall Phi grad hessian linalg_inv dt,
          Effort.table Phi grad hessian linalg_inv sol dt
          = Effort.table Phi grad hessian linalg_inv sol' dt).
Proof.
  intros sol sol' Hx Hf. split; [reflexivity|]. split.
  - intros nd_Hessian linalg_inv Phi rows.
    unfold DiscreteChoice.session_table, DiscreteChoice.res_of,
      DiscreteChoice.log_likelihood.
    now rewrite Hx, Hf.
  - intros Phi grad hessian linalg_inv dt. unfold Effort.table.
    now rewrite Hx, Hf.
Qed.

Lemma table_ignores_convergence_flag_witness :
  let sol := mkResult [0; 0; 0; 0; 0] 1 false 1500 in
  let o1 := DiscreteChoice.mkChoice 7 1 0 0 1 0 0 10 20 15 15 1 in
  let o2 := DiscreteChoice.mkChoice 8 0 1 1 0 1 0 30 10 20 20 0 in
  DiscreteChoice.session_table (fun _ _ => np_eye 5) (fun M => Ok M)
                               (fun _ => 1 / 2) sol [o1; o2]
  = DiscreteChoice.session_table (fun _ _ => np_eye 5) (fun M => Ok M)
                                 (fun _ => 1 / 2) (converged sol) [o1; o2].
Proof.
  intros sol o1 o2.
  exact (proj1 (proj2 (@table_ignores_convergence_flag sol (converged sol)
                         eq_refl eq_refl))
               (fun _ _ => np_eye 5) (fun M => Ok M) (fun _ => 1 / 2)
               [o1; o2]).
Defined.

(** ** The analytic gradient of the discrete-choice likelihood *)

Section AnalyticGradient.

Lemma derivable_pt_lim_ext (f h : R -> R) (t l : R) :
  (forall s, f s = h s) -> derivable_pt_lim f t l -> derivable_pt_lim h t l.
Proof.
  intros E Hf eps Heps. destruct (Hf eps Heps) as [delta Hd].
  exists delta. intros k Hk Hlt. rewrite <- !E. now apply Hd.
Qed.

Lemma derivable_pt_lim_value (f : R -> R) (t l l' : R) :
  l = l' -> derivable_pt_lim f t l -> derivable_pt_lim f t l'.
Proof. now intros ->. Qed.

Lemma softmax2_inv (u w : R) : softmax2 u w = / (1 + exp (w - u)).
Proof.
  unfold softmax2, Rminus. rewrite exp_plus, exp_Ropp.
  pose proof (exp_pos u). pose proof (exp_pos w).
  assert (0 < exp w * / exp u)
    by (apply Rmult_lt_0_compat; [|apply Rinv_0_lt_compat]; lra).
  field. split; lra.
Qed.

(** The derivative of the logarithm of a two-way softmax whose two
    arguments move with a parameter. *)
Lemma log_softmax2_deriv (A B : R -> R) (t dA dB : R) :
  derivable_pt_lim A t dA -> derivable_pt_lim B t dB ->
  derivable_pt_lim (fun s => ln (softmax2 (A s) (B s))) t
                   ((dA - dB) * exp (B t) / (exp (A t) + exp (B t))).
Proof.
  intros HA HB.
  pose proof (exp_pos (B t - A t)) as HE.
  assert (Hc : derivable_pt_lim
                 (opp_fct (comp ln (plus_fct (fct_cte 1)
                                             (comp exp (minus_fct B A)))))
                 t
                 (- (/ (1 + exp (B t - A t))
                     * (0 + exp (B t - A t) * (dB - dA))))).
  { apply derivable_pt_lim_opp.
    apply (derivable_pt_lim_comp
             (plus_fct (fct_cte 1) (comp exp (minus_fct B A))) ln).
    - apply derivable_pt_lim_plus; [apply derivable_pt_lim_const|].
      apply (derivable_pt_lim_comp (minus_fct B A) exp).
      + now apply derivable_pt_lim_minus.
      + apply derivable_pt_lim_exp.
    - apply derivable_pt_lim_ln.
      unfold plus_fct, fct_cte, comp, minus_fct. lra. }
  apply (derivable_pt_lim_value (l := - (/ (1 + exp (B t - A t))
                     * (0 + exp (B t - A t) * (dB - dA))))).
  - unfold Rminus at 1 2. rewrite exp_plus, exp_Ropp.
    pose proof (exp_pos (A t)). pose proof (exp_pos (B t)).
    assert (0 < exp (B t) * / exp (A t))
      by (apply Rmult_lt_0_compat; [|apply Rinv_0_lt_compat]; lra).
    field. repeat split; lra.
  - revert Hc. apply derivable_pt_lim_ext. intros s.
    unfold opp_fct, comp, plus_fct, fct_cte, minus_fct.
    rewrite softmax2_inv, ln_Rinv; [reflexivity|].
    pose proof (exp_pos (B s - A s)). lra.
Qed.

Lemma affine_deriv (c0 c1 t : R) :
  derivable_pt_lim (fun s => c0 + c1 * s) t c1.
Proof.
  apply (derivable_pt_lim_value (l := 0 + c1 * 1)); [ring|].
  apply (derivable_pt_lim_plus (fct_cte c0) (mult_real_fct c1 id)).
  - apply derivable_pt_lim_const.
  - apply derivable_pt_lim_scal, derivable_pt_lim_id.
Qed.

Lemma exp_scaled_deriv (c t : R) :
  derivable_pt_lim (fun s => exp s * c) t (exp t * c).
Proof.
  apply (derivable_pt_lim_value (l := exp t * c + exp t * 0)); [ring|].
  apply (derivable_pt_lim_mult exp (fct_cte c)).
  - apply derivable_pt_lim_exp.
  - apply derivable_pt_lim_const.
Qed.

End AnalyticGradient.

Section AnalyticGradientRows.

Variables a b g d ls : R.
Variable o : DiscreteChoice.Choice.

Lemma softmax2_swap (u w : R) : 1 - softmax2 u w = softmax2 w u.
Proof.
  rewrite <- softmax2_complement. unfold softmax2. now rewrite (Rplus_comm (exp u)).
Qed.

Lemma log_mass_deriv (A B : R -> R) (t dA dB : R) (y : Z) :
  (y = 0 \/ y = 1)%Z ->
  derivable_pt_lim A t dA -> derivable_pt_lim B t dB ->
  derivable_pt_lim (fun s => ln (bernoulli (softmax2 (A s) (B s)) y)) t
                   (log_mass_slope (exp (A t)) (exp (B t)) dA dB y).
Proof.
  intros [-> | ->] HA HB; unfold bernoulli, log_mass_slope; simpl.
  - apply (derivable_pt_lim_ext (f := fun s => ln (softmax2 (B s) (A s)))).
    + intros s. now rewrite softmax2_swap.
    + now apply log_softmax2_deriv.
  - now apply log_softmax2_deriv.
Qed.

(** The rows of [gradi] in closed form. *)
Lemma grad_obs_closed_form :
  binary o ->
  let sigma := exp ls in
  let eA := exp (sigma * U_X a b g d o) in
  let eB := exp (sigma * U_Y a b g d o) in
  let dx := DiscreteChoice.other_x o - DiscreteChoice.self_x o in
  let dy := DiscreteChoice.other_y o - DiscreteChoice.self_y o in
  let y := DiscreteChoice.choice_x o in
  DiscreteChoice.grad_obs [a; b; g; d; ls] o
  = Ok [log_mass_slope eA eB (sigma * (DiscreteChoice.s_x o * dx))
                       (sigma * (DiscreteChoice.s_y o * dy)) y;
        log_mass_slope eA eB (sigma * (DiscreteChoice.r_x o * dx))
                       (sigma * (DiscreteChoice.r_y o * dy)) y;
        log_mass_slope eA eB (sigma * (DiscreteChoice.q o * dx))
                       (sigma * (DiscreteChoice.q o * dy)) y;
        log_mass_slope eA eB (sigma * (DiscreteChoice.v o * dx))
                       (sigma * (DiscreteChoice.v o * dy)) y;
        log_mass_slope eA eB (sigma * U_X a b g d o)
                       (sigma * U_Y a b g d o) y].
Proof.
  intros Hy sigma eA eB dx dy y.
  unfold DiscreteChoice.grad_obs, DiscreteChoice.probs_entry.
  rewrite !uleft_utility, !uright_utility.
  fold (U_X a b g d o) (U_Y a b g d o). fold sigma. fold eA eB.
  pose proof (exp_pos (sigma * U_X a b g d o)) as HA.
  pose proof (exp_pos (sigma * U_Y a b g d o)) as HB.
  fold eA in HA. fold eB in HB.
  unfold y, log_mass_slope.
  destruct Hy as [Hy|Hy]; rewrite Hy;
    unfold DiscreteChoice.sign_pow, DiscreteChoice.sigma_of,
      DiscreteChoice.indicators_x, DiscreteChoice.indicators_y, pow_int;
    simpl; fold sigma dx dy; f_equal;
    repeat (apply (f_equal2 (@cons R)); [field; repeat split; lra|]);
    reflexivity.
Qed.

End AnalyticGradientRows.

Ltac affine_in c0 c1 :=
  apply (derivable_pt_lim_ext (f := fun s => c0 + c1 * s));
  [ intros; unfold U_X, U_Y, utility, weight; ring | apply affine_deriv ].

(** The rows of the matrix [gradi] that [congradloglike] builds are the
    gradient of the logarithm of the likelihood of the observation: for
    a binary choice, each of the first four entries is the partial
    derivative of [ln probs] in the corresponding weight, and the fifth
    the partial derivative in the logarithm of the sensitivity. *)
Theorem gradi_rows_are_log_likelihood_gradient :
  forall (a b g d ls : R) (o : DiscreteChoice.Choice) (row : list R),
    binary o ->
    DiscreteChoice.grad_obs [a; b; g; d; ls] o = Ok row ->
    derivable_pt_lim
      (fun t => ln (DiscreteChoice.probs_entry [t; b; g; d; ls] o)) a
      (nth 0 row 0)
    /\ derivable_pt_lim
         (fun t => ln (DiscreteChoice.probs_entry [a; t; g; d; ls] o)) b
         (nth 1 row 0)
    /\ derivable_pt_lim
         (fun t => ln (DiscreteChoice.probs_entry [a; b; t; d; ls] o)) g
         (nth 2 row 0)
    /\ derivable_pt_lim
         (fun t => ln (DiscreteChoice.probs_entry [a; b; g; t; ls] o)) d
         (nth 3 row 0)
    /\ derivable_pt_lim
         (fun t => ln (DiscreteChoice.probs_entry [a; b; g; d; t] o)) ls
         (nth 4 row 0).
Proof.
  intros a b g d ls o row Hy Hrow.
  rewrite (grad_obs_closed_form a b g d ls Hy) in Hrow.
  injection Hrow as <-. simpl nth.
  repeat split.
  - apply (derivable_pt_lim_ext
             (f := fun t => ln (bernoulli
                                  (softmax2 (exp ls * U_X t b g d o)
                                            (exp ls * U_Y t b g d o))
                                  (DiscreteChoice.choice_x o)))).
    { intros t. now rewrite prob_obs_bernoulli. }
    apply (@log_mass_deriv (fun t => exp ls * U_X t b g d o)
                          (fun t => exp ls * U_Y t b g d o) _ _ _ _ Hy).
    + affine_in (exp ls * U_X 0 b g d o)
                (exp ls * (DiscreteChoice.s_x o 
                           * (DiscreteChoice.other_x o - DiscreteChoice.self_x o))).
    + affine_in (exp ls * U_Y 0 b g d o)
                (exp ls * (DiscreteChoice.s_y o 
                           * (DiscreteChoice.other_y o - DiscreteChoice.self_y o))).
  - apply (derivable_pt_lim_ext
             (f := fun t => ln (bernoulli
                                  (softmax2 (exp ls * U_X a t g d o)
                                            (exp ls * U_Y a t g d o))
                                  (DiscreteChoice.choice_x o)))).
    { intros t. now rewrite prob_obs_bernoulli. }
    apply (@log_mass_deriv (fun t => exp ls * U_X a t g d o)
                          (fun t => exp ls * U_Y a t g d o) _ _ _ _ Hy).
    + affine_in (exp ls * U_X a 0 g d o)
                (exp ls * (DiscreteChoice.r_x o 
                           * (DiscreteChoice.other_x o - DiscreteChoice.self_x o))).
    + affine_in (exp ls * U_Y a 0 g d o)
                (exp ls * (DiscreteChoice.r_y o 
                           * (DiscreteChoice.other_y o - DiscreteChoice.self_y o))).
  - apply (derivable_pt_lim_ext
             (f := fun t => ln (bernoulli
                                  (softmax2 (exp ls * U_X a b t d o)
                                            (exp ls * U_Y a b t d o))
                                  (DiscreteChoice.choice_x o)))).
    { intros t. now rewrite prob_obs_bernoulli. }
    apply (@log_mass_deriv (fun t => exp ls * U_X a b t d o)
                          (fun t => exp ls * U_Y a b t d o) _ _ _ _ Hy).
    + affine_in (exp ls * U_X a b 0 d o)
                (exp ls * (DiscreteChoice.q o 
                           * (DiscreteChoice.other_x o - DiscreteChoice.self_x o))).
    + affine_in (exp ls * U_Y a b 0 d o)
                (exp ls * (DiscreteChoice.q o 
                           * (DiscreteChoice.other_y o - DiscreteChoice.self_y o))).
  - apply (derivable_pt_lim_ext
             (f := fun t => ln (bernoulli
                                  (softmax2 (exp ls * U_X a b g t o)
                                            (exp ls * U_Y a b g t o))
                                  (DiscreteChoice.choice_x o)))).
    { intros t. now rewrite prob_obs_bernoulli. }
    apply (@log_mass_deriv (fun t => exp ls * U_X a b g t o)
                          (fun t => exp ls * U_Y a b g t o) _ _ _ _ Hy).
    + affine_in (exp ls * U_X a b g 0 o)
                (exp ls * (DiscreteChoice.v o 
                           * (DiscreteChoice.other_x o - DiscreteChoice.self_x o))).
    + affine_in (exp ls * U_Y a b g 0 o)
                (exp ls * (DiscreteChoice.v o 
                           * (DiscreteChoice.other_y o - DiscreteChoice.self_y o))).
  - apply (derivable_pt_lim_ext
             (f := fun t => ln (bernoulli
                                  (softmax2 (exp t * U_X a b g d o)
                                            (exp t * U_Y a b g d o))
                                  (DiscreteChoice.choice_x o)))).
    { intros t. now rewrite prob_obs_bernoulli. }
    apply (@log_mass_deriv (fun t => exp t * U_X a b g d o)
                          (fun t => exp t * U_Y a b g d o) _ _ _ _ Hy);
      apply exp_scaled_deriv.
Qed.

Lemma gradi_rows_are_log_likelihood_gradient_witness :
  let o := DiscreteChoice.mkChoice 7 1 0 0 1 0 0 10 20 15 15 1 in
  exists row,
    DiscreteChoice.grad_obs [0; 0; 0; 0; 0] o = Ok row
    /\ derivable_pt_lim
         (fun t => ln (DiscreteChoice.probs_entry [t; 0; 0; 0; 0] o)) 0
         (nth 0 row 0).
Proof.
  intros o.
  destruct (@grad_obs_ok [0; 0; 0; 0; 0] o) as [row Hrow];
    [simpl; lia|].
  exists row. split; [exact Hrow|].
  refine (proj1 (@gradi_rows_are_log_likelihood_gradient 0 0 0 0 0 o row
                   _ Hrow)).
  right. reflexivity.
Defined.

(** ** Finite sums *)

Section FiniteSums.

Lemma sum_upto_plus (n : nat) (f h : nat -> R) :
  sum_upto n (fun i => f i + h i) = sum_upto n f + sum_upto n h.
Proof.
  unfold sum_upto. induction (seq 0 n) as [|i l IH]; simpl; [ring|].
  rewrite IH. ring.
Qed.

Lemma sum_upto_scal_l (n : nat) (c : R) (f : nat -> R) :
  sum_upto n (fun i => c * f i) = c * sum_upto n f.
Proof.
  unfold sum_upto. induction (seq 0 n) as [|i l IH]; simpl; [ring|].
  rewrite IH. ring.
Qed.

Lemma sum_upto_scal_r (n : nat) (c : R) (f : nat -> R) :
  sum_upto n (fun i => f i * c) = sum_upto n f * c.
Proof.
  unfold sum_upto. induction (seq 0 n) as [|i l IH]; simpl; [ring|].
  rewrite IH. ring.
Qed.

Lemma sum_upto_zero (n : nat) : sum_upto n (fun _ => 0) = 0.
Proof.
  unfold sum_upto. induction (seq 0 n) as [|i l IH]; simpl; [ring|].
  rewrite IH. ring.
Qed.

Lemma sum_upto_nonneg (n : nat) (f : nat -> R) :
  (forall i, (i < n)%nat -> 0 <= f i) -> 0 <= sum_upto n f.
Proof.
  intros H. unfold sum_upto.
  assert (Hin : forall i, In i (seq 0 n) -> 0 <= f i).
  { intros i Hi. apply in_seq in Hi. apply H. lia. }
  induction (seq 0 n) as [|i l IH]; simpl; [lra|].
  pose proof (Hin i (or_introl eq_refl)).
  assert (0 <= fold_right Rplus 0 (map f l))
    by (apply IH; intros; apply Hin; now right).
  lra.
Qed.

(** The order of two finite sums can be exchanged. *)
Lemma sum_upto_swap (n m : nat) (f : nat -> nat -> R) :
  sum_upto n (fun i => sum_upto m (fun j => f i j))
  = sum_upto m (fun j => sum_upto n (fun i => f i j)).
Proof.
  unfold sum_upto at 1 4.
  induction (seq 0 n) as [|i l IH]; simpl.
  - now rewrite sum_upto_zero.
  - rewrite sum_upto_plus, IH. reflexivity.
Qed.

End FiniteSums.

(** ** The gradient outer-product matrix is positive semi-definite *)

Section PositiveSemiDefinite.

Lemma entry_madd (k : nat) (A B : matrix) (i j : nat) :
  is_square k A -> is_square k B -> (i < k)%nat -> (j < k)%nat ->
  entry (madd A B) i j = entry A i j + entry B i j.
Proof.
  intros SA SB Hi Hj. unfold entry.
  rewrite nth_madd by (destruct SA as [-> _], SB as [-> _]; lia).
  rewrite nth_vadd by (rewrite (square_row SA), (square_row SB); lia).
  reflexivity.
Qed.

Lemma entry_zeros (k i j : nat) :
  (i < k)%nat -> (j < k)%nat -> entry (np_zeros2 k k) i j = 0.
Proof.
  intros Hi Hj. unfold entry, np_zeros2, np_zeros.
  rewrite (nth_indep _ [] (repeat 0 k)) by (rewrite repeat_length; lia).
  now rewrite !nth_repeat.
Qed.

Lemma entry_shift (k : nat) (M : matrix) (c : R) (i j : nat) :
  is_square k M -> (i < k)%nat -> (j < k)%nat ->
  entry (map (map (fun e => e + c)) M) i j = entry M i j + c.
Proof.
  intros SM Hi Hj. unfold entry.
  rewrite (@nth_map_in _ _ (map (fun e => e + c)) _ _ [])
    by (destruct SM as [-> _]; exact Hi).
  rewrite (@nth_map_in _ _ (fun e => e + c) _ _ 0)
    by (rewrite (square_row SM); lia).
  reflexivity.
Qed.

Lemma quad_ext (k : nat) (x : list R) (M M' : matrix) (F : nat -> nat -> R) :
  (forall i j, (i < k)%nat -> (j < k)%nat ->
               nth i x 0 * entry M i j * nth j x 0 = F i j) ->
  quad k x M = sum_upto k (fun i => sum_upto k (fun j => F i j)).
Proof.
  intros H. unfold quad.
  apply sum_upto_ext. intros i Hi. apply sum_upto_ext. intros j Hj. auto.
Qed.

Lemma quad_zeros (k : nat) (x : list R) : quad k x (np_zeros2 k k) = 0.
Proof.
  rewrite (@quad_ext k x _ (np_zeros2 k k) (fun _ _ => 0)).
  - transitivity (sum_upto k (fun _ => 0)); [|apply sum_upto_zero].
    apply sum_upto_ext. intros i _. apply sum_upto_zero.
  - intros i j Hi Hj. rewrite entry_zeros by assumption. ring.
Qed.

Lemma quad_madd (k : nat) (x : list R) (A B : matrix) :
  is_square k A -> is_square k B ->
  quad k x (madd A B) = quad k x A + quad k x B.
Proof.
  intros SA SB.
  rewrite (@quad_ext k x _ (madd A B)
             (fun i j => nth i x 0 * entry A i j * nth j x 0
                         + nth i x 0 * entry B i j * nth j x 0)).
  - unfold quad. rewrite <- sum_upto_plus. apply sum_upto_ext.
    intros i _. apply sum_upto_plus.
  - intros i j Hi Hj. rewrite (entry_madd SA SB Hi Hj). ring.
Qed.

Lemma quad_outer (x u : list R) :
  quad (length u) x (np_outer u u)
  = Rsqr (sum_upto (length u) (fun i => nth i x 0 * nth i u 0)).
Proof.
  set (k := length u).
  rewrite (@quad_ext k x _ (np_outer u u)
             (fun i j => (nth i x 0 * nth i u 0) * (nth j x 0 * nth j u 0))).
  - unfold Rsqr. rewrite <- sum_upto_scal_r. apply sum_upto_ext.
    intros i _. apply sum_upto_scal_l.
  - intros i j Hi Hj. rewrite nth_outer by exact Hi. ring.
Qed.

Lemma quad_shift (k : nat) (x : list R) (M : matrix) (c : R) :
  is_square k M ->
  quad k x (map (map (fun e => e + c)) M)
  = quad k x M + c * Rsqr (sum_upto k (fun i => nth i x 0)).
Proof.
  intros SM.
  rewrite (@quad_ext k x _ (map (map (fun e => e + c)) M)
             (fun i j => nth i x 0 * entry M i j * nth j x 0
                         + c * (nth i x 0 * nth j x 0))).
  - unfold quad.
    replace (c * Rsqr (sum_upto k (fun i => nth i x 0)))
      with (sum_upto k (fun i =>
              sum_upto k (fun j => c * (nth i x 0 * nth j x 0)))).
    + rewrite <- sum_upto_plus. apply sum_upto_ext.
      intros i _. apply sum_upto_plus.
    + set (S := sum_upto k (fun i => nth i x 0)).
      transitivity (sum_upto k (fun i => c * (nth i x 0 * S))).
      * apply sum_upto_ext. intros i _.
        rewrite (sum_upto_scal_l k c (fun j => nth i x 0 * nth j x 0)).
        now rewrite (sum_upto_scal_l k (nth i x 0) (fun j => nth j x 0)).
      * rewrite (sum_upto_scal_l k c (fun i => nth i x 0 * S)).
        now rewrite (sum_upto_scal_r k S (fun i => nth i x 0)).
  - intros i j Hi Hj. rewrite (entry_shift c SM Hi Hj). ring.
Qed.

Lemma psd_zeros (k : nat) : psd k (np_zeros2 k k).
Proof.
  split; [apply mirror_zeros|]. intros x. rewrite quad_zeros. lra.
Qed.

Lemma psd_add_outer (k : nat) (M : matrix) (u : list R) :
  psd k M -> length u = k -> psd k (madd M (np_outer u u)).
Proof.
  intros [HM Hq] Hu. split.
  - rewrite <- (Nat.min_id k). rewrite <- Hu at 2.
    apply (mirror_madd HM (mirror_outer u)).
  - intros x. pose proof (mirror_outer u) as [SO _]. rewrite Hu in SO.
    rewrite (quad_madd x (proj1 HM) SO). rewrite <- Hu at 2.
    rewrite quad_outer. pose proof (Hq x). pose proof (Rle_0_sqr
      (sum_upto (length u) (fun i => nth i x 0 * nth i u 0))). lra.
Qed.

Lemma psd_shift (k : nat) (M : matrix) (c : R) :
  psd k M -> 0 <= c -> psd k (map (map (fun e => e + c)) M).
Proof.
  intros [HM Hq] Hc. split; [now apply mirror_shift|].
  intros x. rewrite (quad_shift x c (proj1 HM)).
  pose proof (Hq x).
  pose proof (Rle_0_sqr (sum_upto k (fun i => nth i x 0))).
  assert (0 <= c * Rsqr (sum_upto k (fun i => nth i x 0)))
    by (now apply Rmult_le_pos).
  lra.
Qed.

Lemma sandwich_loop_psd (k : nat) (gradi : matrix) (clusters : list Z) :
  Forall (fun r => length r = k) gradi ->
  length clusters = length gradi ->
  psd k (DiscreteChoice.sandwich_loop k gradi clusters).
Proof.
  intros Hg Hl. unfold DiscreteChoice.sandwich_loop.
  generalize (np_unique clusters) as cl.
  pose proof (psd_zeros k) as H0.
  revert H0. generalize (np_zeros2 k k) as S0.
  intros S0 H0 cl. revert S0 H0.
  induction cl as [|c cl IH]; intros S0 Hn; simpl; [exact Hn|].
  apply IH, psd_add_outer; [exact Hn|].
  apply sum_axis0_length, take_rows_shape; assumption.
Qed.

Lemma cluster_loop_psd (k : nat) (dg : list (Z * list R)) (wids : list Z)
      (G0 G : matrix) :
  psd k G0 ->
  Effort.cluster_loop k dg wids G0 = Ok G ->
  psd k G.
Proof.
  revert G0. induction wids as [|w wids IH]; intros G0 Hn; simpl.
  - now intros [= <-].
  - unfold Effort.add_outer.
    set (u := map np_sum _).
    destruct (Nat.eqb_spec (length u) k) as [Hu|Hu].
    + simpl. apply IH. now apply psd_add_outer.
    + destruct u as [|a [|? ?]]; simpl; try discriminate.
      apply IH. change (fun e => e + a * a) with (fun e => e + (a * a)).
      apply psd_shift; [exact Hn|]. apply Rle_0_sqr.
Qed.

End PositiveSemiDefinite.

(** The matrix of gradient contributions is positive semi-definite: for
    every vector [x] the quadratic form [x^T G x] of the matrix
    [congradloglike] returns is non-negative, and so is that of the matrix
    [gradcontr] returns. *)
Theorem gradient_contributions_psd :
  (forall (v : list R) (rows : list DiscreteChoice.Choice) (G : matrix)
          (x : list R),
      DiscreteChoice.congradloglike v rows = Ok G -> 0 <= quad 5 x G)
  /\ (forall (Phi : R -> R) (grad : (list R -> py xreal) -> list R -> list R)
             (dt : list Effort.Decision) (parameters : list R) (G : matrix)
             (x : list R),
         Effort.gradcontr Phi grad dt parameters = Ok G ->
         0 <= quad (length parameters) x G).
Proof.
  split.
  - intros v rows G x. unfold DiscreteChoice.congradloglike.
    destruct (DiscreteChoice.check_shape v); simpl; [|discriminate].
    destruct rows as [|o rows]; [discriminate|].
    destruct (py_mapM (DiscreteChoice.grad_obs v) (o :: rows)) as [gradi|e] eqn:E;
      simpl; [|discriminate].
    intros [= <-].
    destruct (gradi_shape _ _ E) as [Hl Hf].
    assert (Hk : ncols gradi = 5%nat).
    { destruct gradi as [|r0 gradi']; [discriminate Hl|].
      unfold ncols. simpl. now inversion Hf. }
    rewrite Hk. apply sandwich_loop_psd; [exact Hf|].
    simpl in *. rewrite length_map. lia.
  - intros Phi grad dt parameters G x HG. unfold Effort.gradcontr in HG.
    exact (proj2 (cluster_loop_psd _ _ (psd_zeros (length parameters)) HG) x).
Qed.

Lemma gradient_contributions_psd_witness :
  let o1 := DiscreteChoice.mkChoice 7 1 0 0 1 0 0 10 20 15 15 1 in
  let o2 := DiscreteChoice.mkChoice 8 0 1 1 0 1 0 30 10 20 20 0 in
  exists G,
    DiscreteChoice.congradloglike [0; 0; 0; 0; 0] [o1; o2] = Ok G
    /\ 0 <= quad 5 [1; -1; 2; 0; 3] G.
Proof.
  intros o1 o2.
  destruct (@congradloglike_returns [0; 0; 0; 0; 0] [o1; o2]) as [G HG].
  - reflexivity.
  - discriminate.
  - intros o [<-|[<-|[]]]; simpl; lia.
  - exists G. split; [exact HG|].
    exact (proj1 gradient_contributions_psd _ _ _ _ HG).
Defined.

(** ** Symmetry and sign of the sandwich matrix *)

Section SandwichMatrix.

Lemma Adj_nonneg (N K J : nat) :
  (K < N)%nat -> (2 <= J)%nat -> 0 <= Adj N K J.
Proof.
  intros HK HJ. unfold Adj.
  assert (HN : 1 <= INR N).
  { change 1 with (INR 1). apply le_INR. lia. }
  assert (HNK : 0 < INR N - INR K).
  { apply lt_INR in HK. lra. }
  assert (HJ2 : 2 <= INR J).
  { change 2 with (INR 2). apply le_INR. lia. }
  apply Rmult_le_pos.
  - apply Rmult_le_pos; [lra|]. left. now apply Rinv_0_lt_compat.
  - apply Rmult_le_pos; [lra|]. left. apply Rinv_0_lt_compat. lra.
Qed.

Lemma Adj_gt_1 (N K J : nat) :
  (1 <= K)%nat -> (K < N)%nat -> (2 <= J)%nat -> 1 < Adj N K J.
Proof.
  intros HK1 HK HJ. unfold Adj.
  assert (HK1' : 1 <= INR K).
  { change 1 with (INR 1). apply le_INR. lia. }
  assert (HNK : 0 < INR N - INR K).
  { apply lt_INR in HK. lra. }
  assert (HJ2 : 2 <= INR J).
  { change 2 with (INR 2). apply le_INR. lia. }
  assert (H1 : 1 <= (INR N - 1) / (INR N - INR K)).
  { apply (Rmult_le_reg_r (INR N - INR K)); [exact HNK|].
    unfold Rdiv. rewrite Rmult_assoc, Rinv_l by lra. lra. }
  assert (H2 : 1 < INR J / (INR J - 1)).
  { apply (Rmult_lt_reg_r (INR J - 1)); [lra|].
    unfold Rdiv. rewrite Rmult_assoc, Rinv_l by lra. lra. }
  apply Rlt_le_trans with (1 * (INR J / (INR J - 1))); [lra|].
  apply Rmult_le_compat_r; lra.
Qed.

Lemma mscale_square (k : nat) (c : R) (M : matrix) :
  is_square k M -> is_square k (mscale c M).
Proof.
  intros [Hl Hr]. unfold mscale. split.
  - now rewrite length_map.
  - apply Forall_map. revert Hr. apply Forall_impl.
    intros row Hrow. now rewrite length_map.
Qed.

(** The double sum behind an entry of [Hinv G Hinv], with the factors
    side by side. *)
Lemma sandwich_entry_flat (c : R) (k : nat) (Hinv G : matrix) (i j : nat) :
  sandwich_entry c k Hinv G i j
  = c * sum_upto k (fun q0 =>
          sum_upto k (fun p => entry Hinv i p * entry G p q0 * entry Hinv q0 j)).
Proof.
  unfold sandwich_entry. f_equal. apply sum_upto_ext. intros q0 _.
  symmetry.
  apply (sum_upto_scal_r k (entry Hinv q0 j)
           (fun p => entry Hinv i p * entry G p q0)).
Qed.

Lemma sandwich_entry_mirror (c : R) (k : nat) (Hinv G : matrix) (i j : nat) :
  mirror k Hinv -> mirror k G -> (i < k)%nat -> (j < k)%nat ->
  sandwich_entry c k Hinv G i j = sandwich_entry c k Hinv G j i.
Proof.
  intros [_ HH] [_ HG] Hi Hj. rewrite !sandwich_entry_flat. f_equal.
  rewrite (sum_upto_swap k k
             (fun q0 p => entry Hinv i p * entry G p q0 * entry Hinv q0 j)).
  apply sum_upto_ext. intros p Hp. apply sum_upto_ext. intros q0 Hq.
  rewrite (HH j q0 Hj Hq), (HG q0 p Hq Hp), (HH p i Hp Hi). ring.
Qed.

Lemma sandwich_entry_diag (c : R) (k : nat) (Hinv G : matrix) (i : nat) :
  mirror k Hinv -> psd k G -> 0 <= c -> (i < k)%nat ->
  0 <= sandwich_entry c k Hinv G i i.
Proof.
  intros [_ HH] [[_ HG] Hq] Hc Hi. rewrite sandwich_entry_flat.
  apply Rmult_le_pos; [exact Hc|].
  replace (sum_upto k (fun q0 =>
             sum_upto k (fun p =>
               entry Hinv i p * entry G p q0 * entry Hinv q0 i)))
    with (quad k (nth i Hinv []) G); [apply Hq|].
  unfold quad. apply sum_upto_ext. intros q0 Hq0.
  apply sum_upto_ext. intros p Hp.
  fold (entry Hinv i q0) (entry Hinv i p).
  rewrite (HG q0 p Hq0 Hp), (HH q0 i Hq0 Hi). ring.
Qed.

(** [a * Hinv G Hinv] is symmetric, with a non-negative diagonal, when
    [Hinv] is symmetric, [G] positive semi-definite and [a] not negative. *)
Lemma sandwich_matrix_mirror (c : R) (k : nat) (Hinv G : matrix) :
  mirror k Hinv -> psd k G ->
  let V := mscale c (matmul (matmul Hinv G) Hinv) in
  mirror k V
  /\ (0 <= c -> forall i, (i < k)%nat -> 0 <= entry V i i).
Proof.
  intros HH HG V.
  destruct (sandwich_entries c (proj1 HH) (proj1 (proj1 HG))) as [HL HE].
  fold V in HL, HE. split; [split|].
  - apply mscale_square, matmul_square; [|apply HH].
    apply matmul_square; [apply HH|apply HG].
  - intros i j Hi Hj. rewrite (HE i j Hi Hj), (HE j i Hj Hi).
    now apply sandwich_entry_mirror; [|apply HG| |].
  - intros Hc i Hi. rewrite (HE i i Hi Hi).
    now apply sandwich_entry_diag.
Qed.

Lemma congradloglike_psd (v : list R) (rows : list DiscreteChoice.Choice)
      (G : matrix) :
  DiscreteChoice.congradloglike v rows = Ok G -> psd 5 G.
Proof.
  intros HG. split.
  - exact (congradloglike_square _ _ HG).
  - intros x. revert HG. unfold DiscreteChoice.congradloglike.
    destruct (DiscreteChoice.check_shape v); simpl; [|discriminate].
    destruct rows as [|o rows]; [discriminate|].
    destruct (py_mapM (DiscreteChoice.grad_obs v) (o :: rows)) as [gradi|e] eqn:E;
      simpl; [|discriminate].
    intros [= <-].
    destruct (gradi_shape _ _ E) as [Hl Hf].
    assert (Hk : ncols gradi = 5%nat).
    { destruct gradi as [|r0 gradi']; [discriminate Hl|].
      unfold ncols. simpl. now inversion Hf. }
    rewrite Hk. apply sandwich_loop_psd; [exact Hf|].
    simpl in *. rewrite length_map. lia.
Qed.

Lemma gradcontr_psd (Phi : R -> R)
      (grad : (list R -> py xreal) -> list R -> list R)
      (dt : list Effort.Decision) (parameters : list R) (G : matrix) :
  Effort.gradcontr Phi grad dt parameters = Ok G ->
  psd (length parameters) G.
Proof.
  unfold Effort.gradcontr. apply cluster_loop_psd, psd_zeros.
Qed.

End SandwichMatrix.

(** When the inverse of the Hessian is symmetric, there are more
    observations than parameters and at least two clusters, the
    variance-covariance matrix of either notebook is symmetric and its
    diagonal is not negative, so every standard error is the square root of
    a non-negative variance: its square is the diagonal entry. *)
Theorem varcov_symmetric_nonneg_diagonal :
  (forall nd_Hessian linalg_inv (res : list R)
          (rows : list DiscreteChoice.Choice) (Hinv G : matrix),
      linalg_inv (nd_Hessian (fun v => DiscreteChoice.loglike_dummy v rows) res)
      = Ok Hinv ->
      mirror (length res) Hinv ->
      DiscreteChoice.congradloglike res rows = Ok G ->
      (length res < length rows)%nat ->
      (2 <= distinct_count (map DiscreteChoice.sid rows))%nat ->
      exists V,
        DiscreteChoice.varcov nd_Hessian linalg_inv res rows = Ok V
        /\ symmetric V
        /\ forall i, (i < length res)%nat ->
             0 <= entry V i i
             /\ Rsqr (nth i (DiscreteChoice.se_of_varcov V) 0) = entry V i i)
  /\ (forall Phi grad hessian linalg_inv (res : list R)
             (dt : list Effort.Decision) (Hinv G : matrix),
         linalg_inv (hessian (fun p => Effort.negloglike Phi p dt) res)
         = Ok Hinv ->
         mirror (length res) Hinv ->
         Effort.gradcontr Phi grad dt res = Ok G ->
         (length res < length dt)%nat ->
         (2 <= distinct_count (map Effort.wid dt))%nat ->
         exists V se,
           Effort.varcov_estimates Phi grad hessian linalg_inv res dt = Ok V
           /\ Effort.se_cluster Phi grad hessian linalg_inv res dt = Ok se
           /\ symmetric V
           /\ forall i, (i < length res)%nat ->
                0 <= entry V i i /\ Rsqr (nth i se 0) = entry V i i).
Proof.
  split.
  - intros nd_Hessian linalg_inv res rows Hinv G Hi HH HG HNK HJ.
    assert (HK : length res = 5%nat) by (exact (congradloglike_params _ _ HG)).
    assert (PG : psd (length res) G).
    { rewrite HK. exact (congradloglike_psd _ _ HG). }
    set (c := Adj (length rows) (length res)
                  (distinct_count (map DiscreteChoice.sid rows))).
    assert (Hc : 0 <= c) by (now apply Adj_nonneg).
    destruct (sandwich_matrix_mirror c HH PG) as [HM HD].
    exists (mscale c (matmul (matmul Hinv G) Hinv)).
    split; [|split].
    + unfold DiscreteChoice.varcov, DiscreteChoice.hess_fun.
      rewrite Hi. simpl. unfold DiscreteChoice.adj.
      rewrite np_unique_count, adj_expr_choice by lia. simpl.
      rewrite HG. reflexivity.
    + exact (mirror_symmetric HM).
    + intros i Hi'. split; [now apply HD|].
      destruct (@sqrt_diag_entries _ _ (proj1 (proj1 HM))) as [_ Hs].
      unfold DiscreteChoice.se_of_varcov. rewrite (Hs i Hi').
      apply Rsqr_sqrt. now apply HD.
  - intros Phi grad hessian linalg_inv res dt Hinv G Hi HH HG HNK HJ.
    pose proof (gradcontr_psd _ _ _ _ HG) as PG.
    set (c := Adj (length dt) (length res)
                  (distinct_count (map Effort.wid dt))).
    assert (Hc : 0 <= c) by (now apply Adj_nonneg).
    destruct (sandwich_matrix_mirror c HH PG) as [HM HD].
    assert (HV : Effort.varcov_estimates Phi grad hessian linalg_inv res dt
                 = Ok (mscale c (matmul (matmul Hinv G) Hinv))).
    { unfold Effort.varcov_estimates. rewrite Hi. simpl. rewrite HG. simpl.
      unfold Effort.adj.
      rewrite np_unique_count, adj_expr_effort by lia. reflexivity. }
    exists (mscale c (matmul (matmul Hinv G) Hinv)). eexists.
    split; [exact HV|]. split; [|split].
    + unfold Effort.se_cluster. rewrite HV. reflexivity.
    + exact (mirror_symmetric HM).
    + intros i Hi'. split; [now apply HD|].
      destruct (@sqrt_diag_entries _ _ (proj1 (proj1 HM))) as [_ Hs].
      rewrite (Hs i Hi'). apply Rsqr_sqrt. now apply HD.
Qed.

Lemma varcov_symmetric_nonneg_diagonal_witness :
  let o1 := DiscreteChoice.mkChoice 7 1 0 0 1 0 0 10 20 15 15 1 in
  let o2 := DiscreteChoice.mkChoice 8 0 1 1 0 1 0 30 10 20 20 0 in
  let rows := [o1; o2; o1; o2; o1; o2] in
  exists V,
    DiscreteChoice.varcov (fun _ _ => np_eye 5) (fun M => Ok M)
                          [0; 0; 0; 0; 0] rows = Ok V
    /\ symmetric V.
Proof.
  intros o1 o2 rows.
  destruct (@congradloglike_returns [0; 0; 0; 0; 0] rows) as [G HG].
  - reflexivity.
  - discriminate.
  - intros o Ho. simpl in Ho.
    repeat (destruct Ho as [<-|Ho]; [simpl; lia|]). destruct Ho.
  - assert (HH : mirror 5 (np_eye 5)).
    { split; [split; [reflexivity|repeat constructor]|].
      intros i j Hi Hj.
      do 5 (destruct i as [|i]; [do 5 (destruct j as [|j]; [reflexivity|]); lia|]).
      lia. }
    destruct (proj1 varcov_symmetric_nonneg_diagonal
                (fun _ _ => np_eye 5) (fun M => Ok M)
                [0; 0; 0; 0; 0] rows (np_eye 5) G eq_refl HH HG)
      as (V & HV & HS & _).
    + simpl. lia.
    + vm_compute. lia.
    + exists V. split; assumption.
Defined.

(** ** The adjustment, on every input *)

(** The two notebooks write the adjustment with different parentheses;
    the two expressions agree on every triple of lengths, and they raise,
    with a division by zero, exactly when the observation count equals the
    parameter count or there is a single cluster. *)
Theorem adj_notebooks_agree :
  forall n k j : Z,
    DiscreteChoice.adj_choice n k j = Effort.adj_effort n k j
    /\ (DiscreteChoice.adj_choice n k j = Raise ZeroDivisionError
        <-> (n = k \/ j = 1)%Z)
    /\ ((n <> k /\ j <> 1)%Z ->
        DiscreteChoice.adj_choice n k j
        = Ok (IZR (n - 1) / IZR (n - k) * (IZR j / IZR (j - 1)))).
Proof.
  intros n k j.
  unfold DiscreteChoice.adj_choice, Effort.adj_effort, py_div, py_fdiv.
  destruct (Z.eqb_spec (n - k) 0) as [Enk|Enk]; simpl.
  - split; [reflexivity|]. split; [|intros [H _]; lia].
    split; [intros _; left; lia|reflexivity].
  - destruct (Z.eqb_spec (j - 1) 0) as [Ej|Ej]; simpl.
    + split; [reflexivity|]. split; [|intros [_ H]; lia].
      split; [intros _; right; lia|reflexivity].
    + split; [f_equal; unfold Rdiv; ring|]. split; [|reflexivity].
      split; [discriminate|intros [H|H]; lia].
Qed.

(** With at least one parameter, more observations than parameters and at
    least two clusters, both notebooks return an adjustment above 1: the
    variance is inflated.  With fewer observations than parameters the
    adjustment is returned all the same, and is not positive. *)
Theorem adj_inflates :
  forall N K J : nat,
    (2 <= J)%nat ->
    ((1 <= K)%nat -> (K < N)%nat ->
     DiscreteChoice.adj_choice (Z.of_nat N) (Z.of_nat K) (Z.of_nat J)
     = Ok (Adj N K J)
     /\ Effort.adj_effort (Z.of_nat N) (Z.of_nat K) (Z.of_nat J)
        = Ok (Adj N K J)
     /\ 1 < Adj N K J)
    /\ ((1 <= N)%nat -> (N < K)%nat ->
        DiscreteChoice.adj_choice (Z.of_nat N) (Z.of_nat K) (Z.of_nat J)
        = Ok (Adj N K J)
        /\ Adj N K J <= 0).
Proof.
  intros N K J HJ. split.
  - intros HK HN. split; [apply adj_expr_choice; lia|].
    split; [apply adj_expr_effort; lia|]. now apply Adj_gt_1.
  - intros HN HK. split; [apply adj_expr_choice; lia|].
    unfold Adj.
    assert (HN1 : 1 <= INR N).
    { change 1 with (INR 1). apply le_INR. lia. }
    assert (HNK : INR N - INR K < 0).
    { apply lt_INR in HK. lra. }
    assert (HJ2 : 2 <= INR J).
    { change 2 with (INR 2). apply le_INR. lia. }
    assert (H1 : (INR N - 1) / (INR N - INR K) <= 0).
    { unfold Rdiv.
      pose proof (Rinv_lt_0_compat _ HNK) as Hinv.
      replace ((INR N - 1) * / (INR N - INR K))
        with (- ((INR N - 1) * - / (INR N - INR K))) by ring.
      apply Ropp_le_cancel. rewrite Ropp_involutive, Ropp_0.
      apply Rmult_le_pos; lra. }
    assert (H2 : 0 < INR J / (INR J - 1)).
    { apply Rdiv_lt_0_compat; lra. }
    rewrite <- (Rmult_0_l (INR J / (INR J - 1))).
    apply Rmult_le_compat_r; lra.
Qed.

Lemma adj_inflates_witness :
  DiscreteChoice.adj_choice (Z.of_nat 10) (Z.of_nat 5) (Z.of_nat 2)
  = Ok (Adj 10 5 2)
  /\ 1 < Adj 10 5 2.
Proof.
  destruct (proj1 (@adj_inflates 10 5 2 ltac:(lia)) ltac:(lia) ltac:(lia))
    as (H1 & _ & H3).
  split; [exact H1|exact H3].
Defined.

(** ** More on the clamping loops *)

(** After the clamping loops no entry is 0 or 1, the vector has kept its
    length, and running the loops again changes nothing. *)
Theorem clamp_never_saturated :
  forall prob : list R,
    Forall (fun p => p <> 0 /\ p <> 1) (Effort.clamp prob)
    /\ length (Effort.clamp prob) = length prob
    /\ Effort.clamp (Effort.clamp prob) = Effort.clamp prob.
Proof.
  intros prob.
  assert (H : forall p, clamp_entry p <> 0 /\ clamp_entry p <> 1).
  { intros p. unfold clamp_entry.
    destruct (Req_dec_T p 0); [split; lra|].
    destruct (Req_dec_T p 1); split; lra || assumption. }
  split; [|split].
  - rewrite clamp_map. apply Forall_map, Forall_forall. intros p _. apply H.
  - apply clamp_length.
  - rewrite !clamp_map, map_map. apply map_ext. intros p.
    destruct (H p) as [H0 H1]. unfold clamp_entry at 1.
    destruct (Req_dec_T (clamp_entry p) 0); [contradiction|].
    destruct (Req_dec_T (clamp_entry p) 1); [contradiction|reflexivity].
Qed.

(** ** Sample selection *)

Section SampleSelection.

Lemma existsb_eqb_In (z : Z) (l : list Z) :
  existsb (Z.eqb z) l = true <-> In z l.
Proof.
  rewrite existsb_exists. split.
  - intros [y [Hy E]]. apply Z.eqb_eq in E. now subst y.
  - intros H. exists z. split; [exact H|apply Z.eqb_refl].
Qed.

Lemma filter_sorted (P : Z -> bool) (l : list Z) :
  StronglySorted Z.lt l -> StronglySorted Z.lt (filter P l).
Proof.
  induction 1 as [|y t Hs IH Hy]; simpl; [constructor|].
  destruct (P y); [|exact IH].
  constructor; [exact IH|].
  apply Forall_forall. intros w Hw. apply filter_In in Hw.
  rewrite Forall_forall in Hy. apply Hy, Hw.
Qed.

(** Two increasing lists with the same elements are the same list. *)
Lemma sorted_same_elements (l1 l2 : list Z) :
  StronglySorted Z.lt l1 -> StronglySorted Z.lt l2 ->
  (forall z, In z l1 <-> In z l2) -> l1 = l2.
Proof.
  intros H1. revert l2.
  induction H1 as [|y1 t1 Hs1 IH Hy1]; intros l2 H2 Hin.
  - destruct l2 as [|y2 t2]; [reflexivity|].
    exfalso. apply (proj2 (Hin y2)). now left.
  - destruct H2 as [|y2 t2 Hs2 Hy2].
    + exfalso. apply (proj1 (Hin y1)). now left.
    + rewrite Forall_forall in Hy1, Hy2.
      assert (E : y1 = y2).
      { destruct (proj1 (Hin y1) (or_introl eq_refl)) as [E|E]; [auto|].
        destruct (proj2 (Hin y2) (or_introl eq_refl)) as [E'|E']; [auto|].
        specialize (Hy1 _ E'). specialize (Hy2 _ E). lia. }
      subst y2. f_equal. apply IH; [exact Hs2|].
      intros z. split; intros Hz.
      * destruct (proj1 (Hin z) (or_intror Hz)) as [E|E]; [|exact E].
        specialize (Hy1 _ Hz). lia.
      * destruct (proj2 (Hin z) (or_intror Hz)) as [E|E]; [|exact E].
        specialize (Hy2 _ Hz). lia.
Qed.

(** Selecting rows by their identifier selects the identifiers. *)
Lemma np_unique_filter (A : Type) (id : A -> Z) (P : Z -> bool) (l : list A) :
  np_unique (map id (filter (fun r => P (id r)) l))
  = filter P (np_unique (map id l)).
Proof.
  apply sorted_same_elements.
  - apply np_unique_sorted.
  - apply filter_sorted, np_unique_sorted.
  - intros z. rewrite In_np_unique, filter_In, In_np_unique, !in_map_iff.
    split.
    + intros [r [<- Hr]]. apply filter_In in Hr. destruct Hr as [Hr HP].
      split; [now exists r|exact HP].
    + intros [[r [<- Hr]] HP]. exists r. split; [reflexivity|].
      apply filter_In. now split.
Qed.

End SampleSelection.

(** Dropping the listed subjects from the discrete-choice frame keeps
    exactly the rows of the other subjects, in their order, and the
    cluster identifiers that remain are those of the frame that are not on
    the list; dropping twice is dropping once. *)
Theorem drop_subjects_clusters :
  forall (data_drop : list Z) (dt : list DiscreteChoice.Choice),
    (forall o, In o (DiscreteChoice.drop_subjects data_drop dt)
               <-> In o dt /\ ~ In (DiscreteChoice.sid o) data_drop)
    /\ np_unique (map DiscreteChoice.sid
                      (DiscreteChoice.drop_subjects data_drop dt))
       = filter (fun z => negb (existsb (Z.eqb z) data_drop))
                (np_unique (map DiscreteChoice.sid dt))
    /\ DiscreteChoice.drop_subjects data_drop
         (DiscreteChoice.drop_subjects data_drop dt)
       = DiscreteChoice.drop_subjects data_drop dt
    /\ (length (np_unique (map DiscreteChoice.sid
                               (DiscreteChoice.drop_subjects data_drop dt)))
        <= length (np_unique (map DiscreteChoice.sid dt)))%nat.
Proof.
  intros data_drop dt.
  assert (Hu : np_unique (map DiscreteChoice.sid
                              (DiscreteChoice.drop_subjects data_drop dt))
               = filter (fun z => negb (existsb (Z.eqb z) data_drop))
                        (np_unique (map DiscreteChoice.sid dt))).
  { unfold DiscreteChoice.drop_subjects.
    apply (np_unique_filter DiscreteChoice.sid
             (fun z => negb (existsb (Z.eqb z) data_drop))). }
  split; [|split; [exact Hu|split]].
  - intros o. unfold DiscreteChoice.drop_subjects.
    rewrite filter_In, negb_true_iff, <- not_true_iff_false, existsb_eqb_In.
    reflexivity.
  - clear Hu. unfold DiscreteChoice.drop_subjects.
    induction dt as [|o dt IH]; simpl; [reflexivity|].
    destruct (negb (existsb (Z.eqb (DiscreteChoice.sid o)) data_drop)) eqn:E;
      simpl; [rewrite E, IH; reflexivity|exact IH].
  - rewrite Hu. apply filter_length_le.
Qed.

(** A row of the primary sample of the effort notebook comes from a row
    of a subject to keep that had no bonus offered, and exactly one branch
    of the likelihood applies to it: its two corner dummies are 0 or 1,
    never both 1, and each is 1 exactly at its corner.  Every such row of
    the data is in the sample. *)
Theorem primary_sample_rows :
  forall (ind_keep : list Z) (dt : list Effort.RawDecision),
    (forall d, In d (Effort.primary_sample ind_keep dt) ->
       In (Effort.wid d) ind_keep
       /\ (exists r, In r dt /\ Effort.raw_bonusoffered r <> 1%Z
                     /\ d = Effort.add_dummies r)
       /\ ((Effort.ind_effort10 d = 1%Z /\ Effort.ind_effort110 d = 0%Z
            /\ Effort.effort d = 10)
           \/ (Effort.ind_effort10 d = 0%Z /\ Effort.ind_effort110 d = 1%Z
               /\ Effort.effort d = 110)
           \/ (Effort.ind_effort10 d = 0%Z /\ Effort.ind_effort110 d = 0%Z
               /\ Effort.effort d <> 10 /\ Effort.effort d <> 110)))
    /\ (forall r, In r dt -> In (Effort.raw_wid r) ind_keep ->
                  Effort.raw_bonusoffered r <> 1%Z ->
                  In (Effort.add_dummies r) (Effort.primary_sample ind_keep dt))
    /\ (length (Effort.primary_sample ind_keep dt) <= length dt)%nat.
Proof.
  intros ind_keep dt. unfold Effort.primary_sample, Effort.prepare,
    Effort.keep_subjects.
  split; [|split].
  - intros d Hd. apply in_map_iff in Hd. destruct Hd as [r [<- Hr]].
    apply filter_In in Hr. destruct Hr as [Hr Hb].
    apply filter_In in Hr. destruct Hr as [Hr Hk].
    apply existsb_eqb_In in Hk.
    apply negb_true_iff, Z.eqb_neq in Hb.
    split; [exact Hk|]. split; [now exists r|].
    simpl. unfold Effort.dummy.
    destruct (Req_dec_T (Effort.raw_effort r) 10) as [E10|E10];
      destruct (Req_dec_T (Effort.raw_effort r) 110) as [E110|E110].
    + exfalso. lra.
    + left. auto.
    + right. left. auto.
    + right. right. auto.
  - intros r Hr Hk Hb. apply in_map, filter_In. split.
    + apply filter_In. split; [exact Hr|]. now apply existsb_eqb_In.
    + now apply negb_true_iff, Z.eqb_neq.
  - rewrite length_map.
    etransitivity; [apply filter_length_le|apply filter_length_le].
Qed.

Lemma primary_sample_rows_witness :
  let r := Effort.mkRaw 3 2 (1 / 10) 0 1 10 110 0 in
  In (Effort.add_dummies r) (Effort.primary_sample [3%Z; 4%Z] [r]).
Proof.
  intros r.
  apply (proj1 (proj2 (primary_sample_rows [3%Z; 4%Z] [r])) r).
  - now left.
  - simpl. now left.
  - simpl. lia.
Defined.

(** ** When the two discrete-choice functions return *)

Lemma Forall2_In_left (A B : Type) (P : A -> B -> Prop) (l : list A)
      (l' : list B) (x : A) :
  Forall2 P l l' -> In x l -> exists y, P x y.
Proof.
  induction 1 as [|a b l l' Hab _ IH]; intros Hx; [destruct Hx|].
  destruct Hx as [<-|Hx]; [now exists b|auto].
Qed.

(** [loglike_dummy] returns exactly on parameter vectors of length five,
    whatever the frame; [congradloglike] asks for more: the frame must not
    be empty and no choice may exceed 1, because it raises [-1] to the
    integer power [1 - choice]. *)
Theorem discrete_choice_functions_return :
  forall (v : list R) (rows : list DiscreteChoice.Choice),
    ((exists r, DiscreteChoice.loglike_dummy v rows = Ok r)
     <-> length v = 5%nat)
    /\ ((exists G, DiscreteChoice.congradloglike v rows = Ok G)
        <-> (length v = 5%nat /\ rows <> []
             /\ forall o, In o rows -> (DiscreteChoice.choice_x o <= 1)%Z))
    /\ (v = [] -> DiscreteChoice.loglike_dummy v rows = Raise IndexError
                  /\ DiscreteChoice.congradloglike v rows = Raise IndexError)
    /\ (length v = 5%nat -> rows = [] ->
        DiscreteChoice.congradloglike v rows = Raise IndexError).
Proof.
  intros v rows. split; [|split; [|split]].
  - unfold DiscreteChoice.loglike_dummy, DiscreteChoice.probs,
      DiscreteChoice.check_shape.
    destruct v as [|a v']; simpl.
    + split; [intros [r H]; discriminate|discriminate].
    + destruct (Nat.eqb_spec (length v') 4) as [E|E]; simpl.
      * split; [intros _; now rewrite E|intros _; now eexists].
      * split; [intros [r H]; discriminate|intros H; lia].
  - split.
    + intros [G HG]. split; [exact (congradloglike_params _ _ HG)|].
      revert HG. unfold DiscreteChoice.congradloglike.
      destruct (DiscreteChoice.check_shape v); simpl; [|discriminate].
      destruct rows as [|o rows]; [discriminate|].
      destruct (py_mapM (DiscreteChoice.grad_obs v) (o :: rows))
        as [gradi|e] eqn:E; simpl; [|discriminate].
      intros _. split; [discriminate|].
      apply py_mapM_Forall2 in E.
      intros o' Ho'.
      destruct (@Forall2_In_left _ _ _ _ _ o' E Ho') as [row Hrow]. unfold DiscreteChoice.grad_obs in Hrow.
      unfold DiscreteChoice.sign_pow in Hrow.
      destruct (Z.ltb_spec (1 - DiscreteChoice.choice_x o') 0) as [Hlt|Hge];
        [discriminate|lia].
    + intros (Hl & Hne & Hy). now apply congradloglike_returns.
  - intros ->. split; reflexivity.
  - intros Hl ->. unfold DiscreteChoice.congradloglike,
      DiscreteChoice.check_shape.
    destruct v as [|a v']; [discriminate|].
    destruct (Nat.eqb_spec (length (a :: v')) 5) as [E|E]; [reflexivity|lia].
Qed.

(** ** Exchanging the two allocations *)

Lemma probs_entry_swap (v : list R) (o : DiscreteChoice.Choice) :
  DiscreteChoice.probs_entry v (swap_alternatives o)
  = DiscreteChoice.probs_entry v o.
Proof.
  destruct o as [id sx rx sy ry q0 v0 fx ox fy oy y].
  unfold DiscreteChoice.probs_entry, DiscreteChoice.uleft,
    DiscreteChoice.uright, DiscreteChoice.indicators_x,
    DiscreteChoice.indicators_y, swap_alternatives.
  cbn [DiscreteChoice.s_x DiscreteChoice.r_x DiscreteChoice.s_y
       DiscreteChoice.r_y DiscreteChoice.q DiscreteChoice.v
       DiscreteChoice.self_x DiscreteChoice.other_x DiscreteChoice.self_y
       DiscreteChoice.other_y DiscreteChoice.choice_x].
  set (ul := exp _). set (ur := exp _).
  replace (1 - (1 - y))%Z with y by ring.
  rewrite (Rplus_comm ur ul). ring.
Qed.

(** The likelihood does not depend on which allocation is called X:
    exchanging the two allocations of every decision and flipping every
    choice leaves [loglike_dummy] unchanged, for every parameter vector
    and every frame. *)
Theorem loglike_dummy_swap_invariant :
  forall (v : list R) (rows : list DiscreteChoice.Choice),
    DiscreteChoice.loglike_dummy v (map swap_alternatives rows)
    = DiscreteChoice.loglike_dummy v rows.
Proof.
  intros v rows. unfold DiscreteChoice.loglike_dummy, DiscreteChoice.probs.
  destruct (DiscreteChoice.check_shape v); simpl; [|reflexivity].
  rewrite map_map. do 2 f_equal. apply map_ext. intros o.
  apply probs_entry_swap.
Qed.

(** ** The objectives add up over observations *)

Section Additivity.





End Additivity.



(** ** Sign of the effort objective for a wide error term *)




(** ** The reported sensitivity and its test *)

Section Sensitivity.

Lemma delta_se_value (vhat s : R) :
  0 <= s -> DiscreteChoice.delta_se vhat s = exp vhat * s.
Proof.
  intros Hs. unfold DiscreteChoice.delta_se. rewrite !pow_int_2.
  replace (exp vhat * exp vhat * (s * s)) with (Rsqr (exp vhat * s))
    by (unfold Rsqr; ring).
  apply sqrt_Rsqr, Rmult_le_pos; [left; apply exp_pos|exact Hs].
Qed.

Lemma combine_snoc (A B : Type) (l : list A) (l' : list B) (x : A) (y : B) :
  length l = length l' ->
  combine (l ++ [x]) (l' ++ [y]) = combine l l' ++ [(x, y)].
Proof.
  revert l'. induction l as [|h t IH]; intros [|h' t'] H; simpl in *;
    try discriminate; [reflexivity|].
  f_equal. apply IH. lia.
Qed.

End Sensitivity.

(** The sensitivity is estimated on the log scale and reported as its
    exponential, so the reported value is positive whatever the optimiser
    returns; and since its standard error is scaled by the same
    exponential, its z statistic is [1/se] of the log-scale estimate: it
    does not depend on the estimate itself. *)
Theorem sensitivity_z_stat :
  forall (vs ses : list R) (vl s : R),
    length vs = length ses -> 0 < s ->
    exists results se zs,
      DiscreteChoice.results_of (vs ++ [vl]) = Ok results
      /\ DiscreteChoice.se_delta (vs ++ [vl]) (ses ++ [s]) = Ok se
      /\ DiscreteChoice.zvalues results se = Ok zs
      /\ removelast results = vs
      /\ last results 0 = exp vl
      /\ 0 < last results 0
      /\ last zs 0 = 1 / s.
Proof.
  intros vs ses vl s Hl Hs.
  exists (vs ++ [exp vl]), (ses ++ [exp vl * s]).
  eexists. split; [|split; [|split; [|split; [|split; [|split]]]]].
  - unfold DiscreteChoice.results_of. rewrite py_last_app. simpl.
    now rewrite removelast_last.
  - unfold DiscreteChoice.se_delta. rewrite !py_last_app. simpl.
    rewrite removelast_last, delta_se_value by lra. reflexivity.
  - unfold DiscreteChoice.zvalues. apply np_map2_same_length.
    rewrite !length_app. simpl. lia.
  - apply removelast_last.
  - apply last_last.
  - rewrite last_last. apply exp_pos.
  - rewrite combine_snoc by exact Hl. rewrite map_app. simpl.
    rewrite last_last. pose proof (exp_pos vl). field. split; lra.
Qed.

Lemma sensitivity_z_stat_witness :
  exists results se zs,
    DiscreteChoice.results_of ([1; 2] ++ [3]) = Ok results
    /\ DiscreteChoice.se_delta ([1; 2] ++ [3]) ([1 / 2; 1 / 4] ++ [1 / 8])
       = Ok se
    /\ DiscreteChoice.zvalues results se = Ok zs
    /\ last zs 0 = 1 / (1 / 8).
Proof.
  destruct (@sensitivity_z_stat [1; 2] [1 / 2; 1 / 4] 3 (1 / 8) eq_refl
              ltac:(lra)) as (results & se & zs & H1 & H2 & H3 & _ & _ & _ & H7).
  exists results, se, zs. repeat split; assumption.
Defined.

(** ** The comparison of the two sessions *)

Lemma zvalues_s1s2_entries (r1 se1 r2 se2 : list R) :
  length r2 = length r1 -> length se1 = length r1 ->
  length se2 = length r1 ->
  exists zs,
    DiscreteChoice.zvalues_s1s2 r1 se1 r2 se2 = Ok zs
    /\ length zs = length r1
    /\ forall i, (i < length r1)%nat ->
         nth i zs 0
         = diff_stat (nth i r1 0) (nth i se1 0 * nth i se1 0)
                     (nth i r2 0) (nth i se2 0 * nth i se2 0).
Proof.
  intros H2 Hs1 Hs2.
  unfold DiscreteChoice.zvalues_s1s2, DiscreteChoice.var_of.
  rewrite (np_map2_same_length Rminus r1 r2) by lia. simpl.
  rewrite (np_map2_same_length Rplus) by (rewrite !length_map; lia).
  simpl.
  rewrite np_map2_same_length
    by (rewrite !length_map, !length_combine, !length_map; lia).
  eexists. split; [reflexivity|]. split.
  - rewrite !length_map, !length_combine, ?length_map, ?length_combine,
      ?length_map.
    lia.
  - intros i Hi.
    rewrite (nth_zip Rdiv)
      by (rewrite !length_map, !length_combine, ?length_map; lia).
    rewrite (@nth_map_in _ _ Rabs _ _ 0)
      by (rewrite length_map, length_combine; lia).
    rewrite (@nth_map_in _ _ sqrt _ _ 0)
      by (rewrite length_map, length_combine, !length_map; lia).
    rewrite (nth_zip Rminus) by lia.
    rewrite (nth_zip Rplus) by (rewrite !length_map; lia).
    rewrite !(@nth_map_in _ _ (fun s => pow_int s 2) _ _ 0) by lia.
    rewrite !pow_int_2. reflexivity.
Qed.

(** The comparison of two sessions does not depend on which session comes
    first, and none of its statistics is negative. *)
Theorem session_comparison_symmetric :
  forall (results_s1 se_s1 results_s2 se_s2 : list R),
    length results_s2 = length results_s1 ->
    length se_s1 = length results_s1 ->
    length se_s2 = length results_s1 ->
    DiscreteChoice.zvalues_s1s2 results_s1 se_s1 results_s2 se_s2
    = DiscreteChoice.zvalues_s1s2 results_s2 se_s2 results_s1 se_s1
    /\ exists zs,
         DiscreteChoice.zvalues_s1s2 results_s1 se_s1 results_s2 se_s2 = Ok zs
         /\ Forall (fun z => 0 <= z) zs.
Proof.
  intros r1 se1 r2 se2 H2 Hs1 Hs2.
  destruct (zvalues_s1s2_entries r1 se1 r2 se2 H2 Hs1 Hs2)
    as (zs & Hz & Hlen & Hnth).
  destruct (zvalues_s1s2_entries r2 se2 r1 se1) as (zs' & Hz' & Hlen' & Hnth');
    try lia.
  assert (E : zs = zs').
  { apply (nth_ext _ _ 0 0); [lia|].
    intros i Hi. rewrite Hnth, Hnth' by lia. unfold diff_stat.
    rewrite Rabs_minus_sym, (Rplus_comm (nth i se1 0 * nth i se1 0)).
    reflexivity. }
  split; [now rewrite Hz, Hz', E|].
  exists zs. split; [exact Hz|].
  apply Forall_forall. intros z Hin.
  destruct (In_nth _ _ 0 Hin) as [i [Hi <-]].
  rewrite Hnth by lia. unfold diff_stat.
  apply Rmult_le_pos; [apply Rabs_pos|].
  set (w := sqrt _). pose proof (sqrt_pos
    (nth i se1 0 * nth i se1 0 + nth i se2 0 * nth i se2 0)) as Hw.
  fold w in Hw.
  destruct (Req_dec w 0) as [E0|E0]; [rewrite E0, Rinv_0; lra|].
  left. apply Rinv_0_lt_compat. lra.
Qed.

Lemma session_comparison_symmetric_witness :
  DiscreteChoice.zvalues_s1s2 [1; 2] [1 / 2; 1 / 4] [3; 4] [1 / 8; 1]
  = DiscreteChoice.zvalues_s1s2 [3; 4] [1 / 8; 1] [1; 2] [1 / 2; 1 / 4].
Proof.
  exact (proj1 (@session_comparison_symmetric
                  [1; 2] [1 / 2; 1 / 4] [3; 4] [1 / 8; 1]
                  eq_refl eq_refl eq_refl)).
Defined.

(** ** The predicted effort and the optimality condition *)

(** [predchoice] is the effort at which the marginal cost equals the
    discounted wage: with a positive base and [gamma <> 1], the effort
    before the projection-bias shift, [predchoice + pb * alpha], is
    positive and its power [gamma - 1] gives back
    [phi * delta^netdistance * beta^today * betahat^prediction * wage]. *)
Theorem predchoice_first_order_condition :
  forall (p : Effort.Params) (d : Effort.Decision),
    let base := Effort.phi p * pow_int (Effort.delta p) (Effort.netdistance d)
                * pow_int (Effort.beta p) (Effort.today d)
                * pow_int (Effort.betahat p) (Effort.prediction d)
                * Effort.wage d in
    0 < base -> Effort.gamma p <> 1 ->
    0 < Effort.predchoice p d + Effort.pb d * Effort.alpha p
    /\ Rpower (Effort.predchoice p d + Effort.pb d * Effort.alpha p)
              (Effort.gamma p - 1)
       = base.
Proof.
  intros p d base Hb Hg. unfold Effort.predchoice. fold base.
  replace (Rpower base (1 / (Effort.gamma p - 1))
           - Effort.pb d * Effort.alpha p + Effort.pb d * Effort.alpha p)
    with (Rpower base (1 / (Effort.gamma p - 1))) by ring.
  split.
  - unfold Rpower. apply exp_pos.
  - rewrite Rpower_mult.
    replace (1 / (Effort.gamma p - 1) * (Effort.gamma p - 1)) with 1
      by (field; lra).
    now apply Rpower_1.
Qed.

Lemma predchoice_first_order_condition_witness :
  let p := Effort.mkParams 1 1 1 2 1 0 (1 / 10) in
  let d := Effort.add_dummies (Effort.mkRaw 1 0 50 0 0 0 50 0) in
  Rpower (Effort.predchoice p d + Effort.pb d * Effort.alpha p)
         (Effort.gamma p - 1)
  = Effort.phi p * pow_int (Effort.delta p) (Effort.netdistance d)
    * pow_int (Effort.beta p) (Effort.today d)
    * pow_int (Effort.betahat p) (Effort.prediction d)
    * Effort.wage d.
Proof.
  intros p d.
  refine (proj2 (@predchoice_first_order_condition p d _ _)).
  - unfold p, d, pow_int. simpl. lra.
  - unfold p. simpl. lra.
Defined.

(** ** The gradient contributions, entry by entry *)

Section ClusterSums.















End ClusterSums.

(** ** The sandwich variance, with its gradient matrix *)


